(** * Shallow embedding of the bw-snake simulation (src/game)

    Modelled sources: [src/game/components.rs] (Pos, Direction, SnakeMeta,
    Age) and [src/game/plugin.rs] (the Bevy systems of [GamePlugin]).

    Modelling conventions.
    - [u32] values are [Z]; arithmetic on them is overflow-checked as in
      Rust's default (debug) profile: an overflow panics, which ends the
      program, modelled as [None].
    - Entities are [nat] ids allocated from a counter.
    - [Commands] are deferred: the systems of one stage push commands that
      are applied at the end of the stage ([apply_commands]); direct
      component mutations ([snake_meta.len += 1], [age.0 += 1], the snake's
      [Pos]) are immediate.
    - A frame runs [control_snake], then the fixed-timestep set
      ([move_snake], [eat_food], [despawn_old]) zero or more times, then the
      [POST_SNAKE] stage ([respawn_food], [check_snake_collides]). *)

From Stdlib Require Import ZArith List Bool Lia Permutation.
From Stdlib Require String.
Import (notations) String.
Import ListNotations.
Open Scope Z_scope.

(** ** components.rs *)

Record Pos := mkPos { x : Z; y : Z }.

Definition Pos_eq_dec (a b : Pos) : {a = b} + {a <> b}.
Proof. decide equality; apply Z.eq_dec. Defined.

Definition pos_eqb (a b : Pos) : bool := (x a =? x b) && (y a =? y b).

Definition pos_mem (p : Pos) (l : list Pos) : bool := existsb (pos_eqb p) l.

Inductive Direction := Up | Down | Left | Right.

Definition direction_eqb (a b : Direction) : bool :=
  match a, b with
  | Up, Up | Down, Down | Left, Left | Right, Right => true
  | _, _ => false
  end.

Definition opposite (d : Direction) : Direction :=
  match d with
  | Up => Down
  | Down => Up
  | Right => Left
  | Left => Right
  end.

Record SnakeMeta := mkSnakeMeta { len : Z; dir : Direction; prev_dir : Direction }.

Definition Entity := nat.

(** A [SnakeBody] entity with its [Pos] and [Age]. *)
Record Seg := mkSeg { seg_id : Entity; seg_pos : Pos; seg_age : Z }.

(** ** u32 arithmetic with overflow checks *)

Definition U32_MAX : Z := 2 ^ 32 - 1.

Definition checked_add_u32 (a b : Z) : option Z :=
  if a + b <=? U32_MAX then Some (a + b) else None.

Definition checked_sub_u32 (a b : Z) : option Z :=
  if b <=? a then Some (a - b) else None.

Definition checked_mul_u32 (a b : Z) : option Z :=
  if a * b <=? U32_MAX then Some (a * b) else None.

(** ** World *)

Record Scene := mkScene { x_size : Z; y_size : Z }.

Definition in_scene (sc : Scene) (p : Pos) : Prop :=
  0 <= x p < x_size sc /\ 0 <= y p < y_size sc.

Record World := mkWorld {
  scene : Scene;
  walls : list (Entity * Pos);        (* wall tiles: [Tile] + [Collision] *)
  snake_id : Entity;
  snake_pos : Pos;
  snake_meta : SnakeMeta;
  snake_changed : bool;               (* [Changed<Pos>] for [check_snake_collides] *)
  body : list Seg;                    (* [SnakeBody] entities, in spawn order *)
  food : list (Entity * Pos);         (* [Food] entities *)
  next_entity : Entity
}.

Definition set_snake (w : World) (p : Pos) (m : SnakeMeta) (ch : bool) : World :=
  mkWorld (scene w) (walls w) (snake_id w) p m ch (body w) (food w) (next_entity w).

Definition set_body (w : World) (b : list Seg) : World :=
  mkWorld (scene w) (walls w) (snake_id w) (snake_pos w) (snake_meta w)
    (snake_changed w) b (food w) (next_entity w).

(** Deferred [Commands]. *)
Inductive Command :=
| SpawnSnakeBody (p : Pos)      (* [spawn_snake_body]: SnakeBody, Age(0), Pos, Collision *)
| SpawnFood (p : Pos)           (* [spawn_food]: Food, Pos *)
| Despawn (e : Entity).

Definition apply_command (w : World) (c : Command) : World :=
  match c with
  | SpawnSnakeBody p =>
      mkWorld (scene w) (walls w) (snake_id w) (snake_pos w) (snake_meta w)
        (snake_changed w) (body w ++ [mkSeg (next_entity w) p 0]) (food w)
        (S (next_entity w))
  | SpawnFood p =>
      mkWorld (scene w) (walls w) (snake_id w) (snake_pos w) (snake_meta w)
        (snake_changed w) (body w) (food w ++ [(next_entity w, p)])
        (S (next_entity w))
  | Despawn e =>
      mkWorld (scene w) (walls w) (snake_id w) (snake_pos w) (snake_meta w)
        (snake_changed w)
        (filter (fun s => negb (Nat.eqb (seg_id s) e)) (body w))
        (filter (fun f => negb (Nat.eqb (fst f) e)) (food w))
        (next_entity w)
  end.

Definition apply_commands (w : World) (cs : list Command) : World :=
  fold_left apply_command cs w.

(** Entities carrying [Collision]: walls, the snake head, body segments. *)
Definition collidables (w : World) : list (Entity * Pos) :=
  walls w ++ (snake_id w, snake_pos w) :: map (fun s => (seg_id s, seg_pos s)) (body w).

(** ** Systems of [GamePlugin] *)

(** [eat_food]: the first food at the snake's position is despawned and
    [len] grows by one; the loop then [break]s. *)
Fixpoint eat_food (m : SnakeMeta) (p : Pos) (foods : list (Entity * Pos))
  : option (SnakeMeta * list Command) :=
  match foods with
  | [] => Some (m, [])
  | (et, fp) :: rest =>
      if pos_eqb p fp then
        match checked_add_u32 (len m) 1 with
        | Some l => Some (mkSnakeMeta l (dir m) (prev_dir m), [Despawn et])
        | None => None
        end
      else eat_food m p rest
  end.

(** [move_snake]: one tile along [dir], [prev_dir := dir], and a body
    segment spawned (deferred) at the old position. *)
Definition move_snake (m : SnakeMeta) (pos : Pos)
  : option (SnakeMeta * Pos * list Command) :=
  let old_pos := pos in
  let new_pos :=
    match dir m with
    | Up => option_map (fun v => mkPos (x pos) v) (checked_add_u32 (y pos) 1)
    | Down => option_map (fun v => mkPos (x pos) v) (checked_sub_u32 (y pos) 1)
    | Left => option_map (fun v => mkPos v (y pos)) (checked_sub_u32 (x pos) 1)
    | Right => option_map (fun v => mkPos v (y pos)) (checked_add_u32 (x pos) 1)
    end in
  match new_pos with
  | Some p => Some (mkSnakeMeta (len m) (dir m) (dir m), p, [SpawnSnakeBody old_pos])
  | None => None
  end.

(** [despawn_old]: every existing segment ages by one (immediately); those
    with [age + 1 == len] are despawned (deferred). *)
Fixpoint despawn_old (m : SnakeMeta) (segs : list Seg) : option (list Seg * list Command) :=
  match segs with
  | [] => Some ([], [])
  | s :: rest =>
      match checked_add_u32 (seg_age s) 1 with
      | None => None
      | Some a =>
          match checked_add_u32 a 1 with
          | None => None
          | Some a1 =>
              let s' := mkSeg (seg_id s) (seg_pos s) a in
              match despawn_old m rest with
              | None => None
              | Some (rest', cs) =>
                  Some (s' :: rest', if a1 =? len m then Despawn (seg_id s) :: cs else cs)
              end
          end
      end
  end.

(** The keys [control_snake] reacts to, as [bevy::input::keyboard::KeyCode]. *)
Module KeyCode.
Inductive t := Up | W | Down | S | Left | A | Right | D | Other.
End KeyCode.

(** The [match] on the released key in [control_snake]: [tmp_dir] starts
    as the current direction and is overwritten by a direction key. *)
Definition released_dir (tmp_dir : Direction) (released : option KeyCode.t) : Direction :=
  match released with
  | Some (KeyCode.Up | KeyCode.W) => Up
  | Some (KeyCode.Down | KeyCode.S) => Down
  | Some (KeyCode.Left | KeyCode.A) => Left
  | Some (KeyCode.Right | KeyCode.D) => Right
  | _ => tmp_dir
  end.

(** [control_snake]: the first just-released key selects [tmp_dir]; it is
    applied unless it is the opposite of [prev_dir]. *)
Definition control_snake (m : SnakeMeta) (is_changed : bool) (released : option KeyCode.t)
  : SnakeMeta :=
  if is_changed then
    let tmp_dir := released_dir (dir m) released in
    if negb (direction_eqb tmp_dir (opposite (prev_dir m)))
    then mkSnakeMeta (len m) tmp_dir (prev_dir m)
    else m
  else m.

(** [0..n] as the list of its values. *)
Definition zrange (n : Z) : list Z := map Z.of_nat (seq 0 (Z.to_nat n)).

(** The random attempts of [respawn_food]: one iteration per element of the
    iterated collection, each drawing [rng i] (the i-th [(gen_range x,
    gen_range y)] pair) and stopping at the first unoccupied one. *)
Fixpoint try_random (iters : nat) (i : nat) (rng : nat -> Pos) (occupied : list Pos)
  : option Pos :=
  match iters with
  | O => None
  | S k => let p := rng i in
           if pos_mem p occupied then try_random k (S i) rng occupied else Some p
  end.

(** The fallback scan: [for x in 0..x_size { for y in 0..y_size { .. } }]. *)
Definition scan (sc : Scene) (occupied : list Pos) : option Pos :=
  find (fun p => negb (pos_mem p occupied))
    (flat_map (fun xv => map (fun yv => mkPos xv yv) (zrange (y_size sc))) (zrange (x_size sc))).

Definition num_attempts : Z := 100.

(** [gen_range(0..n)] panics on the empty range, i.e. when [n = 0]. *)
Definition gen_range_ok (n : Z) : bool := 0 <? n.

(** [respawn_food]. The loop header is [for _ in [0..num_attempts]]: an
    array holding the single range [0..num_attempts], so the body runs once.
    The body starts with [gen_range(0..x_size)] and [gen_range(0..y_size)],
    which panic when the scene has a zero size. *)
Definition respawn_food (sc : Scene) (foods : list (Entity * Pos)) (occupied : list Pos)
  (rng : nat -> Pos) : option (list Command) :=
  match foods with
  | _ :: _ => Some []
  | [] =>
      let occupied_pos := nodup Pos_eq_dec occupied in
      match checked_mul_u32 (x_size sc) (y_size sc) with
      | None => None
      | Some total =>
          if Z.of_nat (length occupied_pos) =? total then Some []
          else
            let attempts := [(0, num_attempts)] in
            if negb (gen_range_ok (x_size sc) && gen_range_ok (y_size sc)) then None
            else
            match try_random (length attempts) 0 rng occupied_pos with
            | Some p => Some [SpawnFood p]
            | None =>
                match scan sc occupied_pos with
                | Some p => Some [SpawnFood p]
                | None => Some []
                end
            end
      end
  end.

(** [check_snake_collides]: [None] when the [Changed<Pos>] query is empty
    (the system returns early); otherwise the ids for which ["failed"] is
    printed. *)
Definition check_snake_collides (changed : bool) (sid : Entity) (spos : Pos)
  (collision : list (Entity * Pos)) : option (list Entity) :=
  if changed then
    Some (map fst (filter (fun e => pos_eqb spos (snd e) && negb (Nat.eqb sid (fst e)))
                     collision))
  else None.

(** One run of the fixed-timestep system set: [move_snake], [eat_food]
    (after move), [despawn_old] (after eat), then the stage's commands. *)
Definition fixed_update (w : World) : option World :=
  match move_snake (snake_meta w) (snake_pos w) with
  | None => None
  | Some (m1, p1, c1) =>
      match eat_food m1 p1 (food w) with
      | None => None
      | Some (m2, c2) =>
          match despawn_old m2 (body w) with
          | None => None
          | Some (b2, c3) =>
              Some (apply_commands (set_body (set_snake w p1 m2 true) b2) (c1 ++ c2 ++ c3))
          end
      end
  end.

Fixpoint fixed_updates (k : nat) (w : World) : option World :=
  match k with
  | O => Some w
  | S k' => match fixed_update w with
            | None => None
            | Some w' => fixed_updates k' w'
            end
  end.

Record FrameInput := mkFrameInput {
  keys_changed : bool;                 (* [inputs.is_changed()] *)
  key_released : option KeyCode.t;     (* [inputs.get_just_released().next()] *)
  fixed_runs : nat;                    (* runs of the [FixedTimestep::step(0.2)] set *)
  rng : nat -> Pos                     (* the random draws of [respawn_food] *)
}.

(** One frame: [Update] (control, then the fixed set), [POST_SNAKE]
    ([respawn_food] and [check_snake_collides] on the same world, the
    spawned food applied at the end of the stage). The second component
    is the output of [check_snake_collides]. *)
Definition frame (w : World) (inp : FrameInput) : option (World * option (list Entity)) :=
  let m0 := control_snake (snake_meta w) (keys_changed inp) (key_released inp) in
  let w0 := set_snake w (snake_pos w) m0 (snake_changed w) in
  match fixed_updates (fixed_runs inp) w0 with
  | None => None
  | Some w1 =>
      let occupied := map snd (collidables w1) in
      match respawn_food (scene w1) (food w1) occupied (rng inp) with
      | None => None
      | Some cs =>
          let out := check_snake_collides (snake_changed w1) (snake_id w1) (snake_pos w1)
                       (collidables w1) in
          Some (apply_commands (set_snake w1 (snake_pos w1) (snake_meta w1) false) cs, out)
      end
  end.

(** ** Startup: [create_basic_scene] and [spawn_snake] *)

Definition scene_size : Z := 10.

(** Tiles are spawned by [for i { for j { .. } }]; tile [(i, j)] gets id
    [i * 10 + j]; only wall tiles carry [Collision]. *)
Definition basic_walls : list (Entity * Pos) :=
  flat_map (fun i =>
    flat_map (fun j =>
      if (i =? 0) || (j =? 0) || (i =? scene_size - 1) || (j =? scene_size - 1)
      then [(Z.to_nat (i * scene_size + j), mkPos i j)] else [])
      (zrange scene_size))
    (zrange scene_size).

Definition init_world : World :=
  mkWorld (mkScene 10 10) basic_walls 100%nat (mkPos 5 5) (mkSnakeMeta 4 Right Right)
    true [] [] 101%nat.

(** States reachable from startup, indexed by the number of fixed-timestep
    runs so far. The random draws are within the scene's bounds. *)
Inductive reachable : nat -> World -> Prop :=
| reach_init : reachable 0 init_world
| reach_frame n w inp w' out :
    reachable n w ->
    (forall i, in_scene (scene w) (rng inp i)) ->
    frame w inp = Some (w', out) ->
    reachable (fixed_runs inp + n) w'.

(** Several frames in a row. *)
Fixpoint run_frames (w : World) (inps : list FrameInput) : option World :=
  match inps with
  | [] => Some w
  | inp :: rest =>
      match frame w inp with
      | None => None
      | Some (w', _) => run_frames w' rest
      end
  end.

(** ** Auxiliary notions for the statements *)

(** A tile step with unbounded integers, as the spec words it:
    Up: y+1, Down: y-1, Left: x-1, Right: x+1. *)
Definition step_pos (d : Direction) (p : Pos) : Pos :=
  match d with
  | Up => mkPos (x p) (y p + 1)
  | Down => mkPos (x p) (y p - 1)
  | Left => mkPos (x p - 1) (y p)
  | Right => mkPos (x p + 1) (y p)
  end.

(** Ids of the despawnable entities (body segments and food). *)
Definition ids_of (w : World) : list Entity := map seg_id (body w) ++ map fst (food w).

(** Well-formedness kept by every frame: those ids are distinct and below
    the id counter, and ages are non-negative. *)
Definition wf (w : World) : Prop :=
  NoDup (ids_of w) /\ Forall (fun e => (e < next_entity w)%nat) (ids_of w) /\
  Forall (fun s => 0 <= seg_age s) (body w).

(** [desc m = [m-1; ...; 1; 0]]: ages of a trail of [m] segments, oldest first. *)
Fixpoint desc (m : nat) : list Z :=
  match m with
  | O => []
  | S k => Z.of_nat k :: desc k
  end.

(** The trail invariant after [n] fixed-timestep runs: [m] segments with
    ages [m-1, ..., 0], and [m = min n (len - 1)]. *)
Definition trail_inv (n : nat) (w : World) : Prop :=
  wf w /\ 4 <= len (snake_meta w) /\
  map seg_age (body w) = desc (length (body w)) /\
  Z.of_nat (length (body w)) = Z.min (Z.of_nat n) (len (snake_meta w) - 1).

(** The food-spawn policy as the spec states it: up to [num_attempts]
    random draws, then the same exhaustive scan. *)
Definition respawn_food_per_spec (sc : Scene) (foods : list (Entity * Pos))
  (occupied : list Pos) (rng : nat -> Pos) : option (list Command) :=
  match foods with
  | _ :: _ => Some []
  | [] =>
      let occupied_pos := nodup Pos_eq_dec occupied in
      match checked_mul_u32 (x_size sc) (y_size sc) with
      | None => None
      | Some total =>
          if Z.of_nat (length occupied_pos) =? total then Some []
          else
            if negb (gen_range_ok (x_size sc) && gen_range_ok (y_size sc)) then None
            else
            match try_random (Z.to_nat num_attempts) 0 rng occupied_pos with
            | Some p => Some [SpawnFood p]
            | None =>
                match scan sc occupied_pos with
                | Some p => Some [SpawnFood p]
                | None => Some []
                end
            end
      end
  end.

(** ** [TileType], [TileFactory] and the tiles of [create_basic_scene] *)

Inductive TileType := Wall | Floor.

Definition TileType_eqb (a b : TileType) : bool :=
  match a, b with
  | Wall, Wall | Floor, Floor => true
  | _, _ => false
  end.

Definition has_collision (t : TileType) : bool :=
  match t with
  | Wall => true
  | Floor => false
  end.

(** A [HashMap<TileType, Handle<Image>>] as an association list; a handle
    is the path it was loaded from. *)
Definition Materials := list (TileType * String.string).

(** [HashMap::insert]: the new binding replaces an existing one. *)
Definition materials_insert (k : TileType) (v : String.string) (m : Materials) : Materials :=
  (k, v) :: filter (fun kv => negb (TileType_eqb (fst kv) k)) m.

(** [HashMap::get]. *)
Definition materials_get (k : TileType) (m : Materials) : option String.string :=
  option_map snd (find (fun kv => TileType_eqb (fst kv) k) m).

Record TileFactory := mkTileFactory { err_material : String.string; materials : Materials }.

(** [TileFactory::new]. *)
Definition TileFactory_new : TileFactory :=
  let materials := materials_insert Wall "images/wall.png" [] in
  let materials := materials_insert Floor "images/floor.png" materials in
  mkTileFactory "images/err.png" materials.

(** A spawned tile entity: [Tile], its [Pos], its texture, and whether it
    carries [Collision]. *)
Record TileEnt := mkTileEnt {
  tile_id : Entity; tile_pos : Pos; tile_texture : String.string; tile_collision : bool
}.

(** [TileFactory::spawn]: the texture is [materials.get(&tile)] or
    [err_material]; [Collision] is inserted when [tile.has_collision()]. *)
Definition TileFactory_spawn (tf : TileFactory) (id : Entity) (pos : Pos) (tile : TileType)
  : TileEnt :=
  let material :=
    match materials_get tile (materials tf) with
    | Some m => m
    | None => err_material tf
    end in
  mkTileEnt id pos material (has_collision tile).

(** The tiles and the [Scene] resource of [create_basic_scene]; tile
    [(i, j)] is the [(i * 10 + j)]-th entity spawned. *)
Definition create_basic_scene : list TileEnt * Scene :=
  let tile_factory := TileFactory_new in
  let scene_size := 10 in
  (flat_map (fun i =>
     map (fun j =>
       if (i =? 0) || (j =? 0) || (i =? scene_size - 1) || (j =? scene_size - 1)
       then TileFactory_spawn tile_factory (Z.to_nat (i * scene_size + j)) (mkPos i j) Wall
       else TileFactory_spawn tile_factory (Z.to_nat (i * scene_size + j)) (mkPos i j) Floor)
       (zrange scene_size))
     (zrange scene_size),
   mkScene 10 10).

(** ** [update_position]

    The [f32] type and its operations are left abstract: [as f32] on a
    [u32], subtraction, multiplication, division and the literals [1.0]
    and [2.0]. The products [pos.x * TILE_SIZE] and [pos.y * TILE_SIZE] are
    [u32] arithmetic, overflow-checked. *)

Definition TILE_SIZE : Z := 32.

Section UpdatePosition.
Context {f32 : Type} (u32_as_f32 : Z -> f32) (f32_sub f32_mul f32_div : f32 -> f32 -> f32)
  (f32_one f32_two : f32).

(** The loop over the [Changed<Pos>] entities, in query order. *)
Fixpoint translations (offset_x offset_y : f32) (changed : list Pos) : option (list (f32 * f32)) :=
  match changed with
  | [] => Some []
  | pos :: rest =>
      match checked_mul_u32 (x pos) TILE_SIZE with
      | None => None
      | Some px =>
          match checked_mul_u32 (y pos) TILE_SIZE with
          | None => None
          | Some py =>
              match translations offset_x offset_y rest with
              | None => None
              | Some ts => Some ((f32_sub (u32_as_f32 px) offset_x,
                                  f32_sub (u32_as_f32 py) offset_y) :: ts)
              end
          end
      end
  end.

(** [update_position]: the new [transform.translation] (x, y) of each
    entity whose [Pos] changed, or [None] when the system panics. *)
Definition update_position (sc : Scene) (changed : list Pos) : option (list (f32 * f32)) :=
  let offset_x :=
    f32_div (f32_mul (f32_sub (u32_as_f32 (x_size sc)) f32_one) (u32_as_f32 TILE_SIZE)) f32_two in
  let offset_y :=
    f32_div (f32_mul (f32_sub (u32_as_f32 (y_size sc)) f32_one) (u32_as_f32 TILE_SIZE)) f32_two in
  translations offset_x offset_y changed.

End UpdatePosition.

(** ** Invariants of the running game *)

(** At most one food entity; each lies inside the scene and on no tile
    held by a collidable entity (wall, head or body segment). *)
Definition food_ok (w : World) : Prop :=
  (length (food w) <= 1)%nat /\
  forall f, In f (food w) ->
    in_scene (scene w) (snd f) /\ ~ In (snd f) (map snd (collidables w)).

(** The newest body segment (age 0) is one step behind the head, along the
    direction of the last move. *)
Definition neck_ok (w : World) : Prop :=
  forall s, In s (body w) -> seg_age s = 0 ->
    step_pos (prev_dir (snake_meta w)) (seg_pos s) = snake_pos w.

(** Body segments of consecutive ages lie on adjacent tiles. *)
Definition chain_ok (w : World) : Prop :=
  forall s s', In s (body w) -> In s' (body w) -> seg_age s' = seg_age s + 1 ->
    exists d, step_pos d (seg_pos s') = seg_pos s.

(** The invariant on the snake kept by every system. *)
Definition snake_inv (w : World) : Prop :=
  wf w /\ dir (snake_meta w) <> opposite (prev_dir (snake_meta w)) /\ neck_ok w /\ chain_ok w.

(** ** Sample inputs *)

(** A frame with no key event and one fixed-timestep run; every random
    draw is tile (1, 1). *)
Definition tick_input : FrameInput := mkFrameInput false None 1 (fun _ => mkPos 1 1).

(** A frame with no key event and no fixed-timestep run. *)
Definition idle_input : FrameInput := mkFrameInput false None 0 (fun _ => mkPos 1 1).

(** A snake at (6, 5) heading right with a full trail (ages 2, 1, 0) and
    food on the next tile (7, 5). *)
Definition sample_world : World :=
  mkWorld (mkScene 10 10) basic_walls 100%nat (mkPos 6 5) (mkSnakeMeta 4 Right Right) false
    [mkSeg 101%nat (mkPos 3 5) 2; mkSeg 102%nat (mkPos 4 5) 1; mkSeg 103%nat (mkPos 5 5) 0]
    [(104%nat, mkPos 7 5)] 105%nat.

(** Two frames from startup, each with one fixed-timestep run. *)
Definition two_ticks : option World := run_frames init_world [tick_input; tick_input].

Definition after_two_ticks : World :=
  match two_ticks with Some w => w | None => init_world end.

(** The key [Left] (a reversal of the snake heading right) handled before
    the third move. *)
Definition third_move : option World :=
  fixed_update (set_snake after_two_ticks (snake_pos after_two_ticks)
    (control_snake (snake_meta after_two_ticks) true (Some KeyCode.Left))
    (snake_changed after_two_ticks)).

(** Every tile of the scene but (1, 1) is occupied, and so is (10, 5),
    outside the scene. *)
(** Every tile of the 10x10 scene. *)
Definition full_scene_tiles : list Pos :=
  flat_map (fun i => map (fun j => mkPos i j) (zrange 10)) (zrange 10).

Definition occupied_with_outside : list Pos :=
  mkPos 10 5 :: filter (fun p => negb (pos_eqb p (mkPos 1 1)))
    (flat_map (fun i => map (fun j => mkPos i j) (zrange 10)) (zrange 10)).

(** ** Basic lemmas *)

Lemma pos_eqb_eq (a b : Pos) : pos_eqb a b = true <-> a = b.
Proof.
  destruct a as [ax ay], b as [bx by_]; unfold pos_eqb; simpl.
  rewrite andb_true_iff, !Z.eqb_eq; split.
  - intros [-> ->]; reflexivity.
  - intros H; injection H; auto.
Qed.

Lemma pos_mem_In (p : Pos) (l : list Pos) : pos_mem p l = true <-> In p l.
Proof.
  unfold pos_mem; rewrite existsb_exists; split.
  - intros [q [Hq He]]; apply pos_eqb_eq in He; subst; exact Hq.
  - intros H; exists p; split; [exact H | apply pos_eqb_eq; reflexivity].
Qed.

Lemma direction_eqb_eq (a b : Direction) : direction_eqb a b = true <-> a = b.
Proof. destruct a, b; simpl; split; congruence. Qed.

Lemma zrange_In (v n : Z) : In v (zrange n) -> 0 <= v < n.
Proof.
  unfold zrange; rewrite in_map_iff; intros [k [<- Hk]].
  apply in_seq in Hk; lia.
Qed.

Lemma try_random_some (k i : nat) (rng : nat -> Pos) (occ : list Pos) (p : Pos) :
  try_random k i rng occ = Some p -> (exists j, p = rng j) /\ ~ In p occ.
Proof.
  revert i; induction k as [|k IH]; simpl; intros i H; [discriminate|].
  destruct (pos_mem (rng i) occ) eqn:E.
  - exact (IH _ H).
  - injection H as <-; split; [eauto|].
    rewrite <- pos_mem_In, E; discriminate.
Qed.

Lemma scan_some (sc : Scene) (occ : list Pos) (p : Pos) :
  scan sc occ = Some p -> in_scene sc p /\ ~ In p occ.
Proof.
  unfold scan; intros H; apply find_some in H as [Hin Hf].
  apply in_flat_map in Hin as [xv [Hx Hy]]; apply in_map_iff in Hy as [yv [<- Hy]].
  apply zrange_In in Hx, Hy; split; [split; simpl; lia|].
  rewrite <- pos_mem_In; destruct (pos_mem _ occ); simpl in Hf; congruence.
Qed.

Lemma scan_none (sc : Scene) (occ : list Pos) :
  (forall p, in_scene sc p -> In p occ) -> scan sc occ = None.
Proof.
  intros Hfull; destruct (scan sc occ) as [p|] eqn:E; [|reflexivity].
  apply scan_some in E as [Hp Hn]; exfalso; exact (Hn (Hfull p Hp)).
Qed.

(** ** Claims about single systems *)

(** C9: [opposite] is an involution on the four directions, pairing Up
    with Down and Left with Right. *)
Theorem opposite_involutive :
  (forall d, opposite (opposite d) = d) /\
  opposite Up = Down /\ opposite Down = Up /\ opposite Left = Right /\ opposite Right = Left.
Proof. repeat split; intros []; reflexivity. Qed.

(** C2: a requested direction is applied only if it differs from
    [opposite prev_dir]; a rejected request leaves the direction unchanged;
    [prev_dir] (and [len]) are never touched by input handling, so over any
    sequence of requests between two moves the direction stays the initial
    one or becomes one that is not [opposite prev_dir]. *)
Theorem control_snake_reversal_rule (m : SnakeMeta) :
  (forall is_changed released,
     let m' := control_snake m is_changed released in
     prev_dir m' = prev_dir m /\ len m' = len m /\
     (released_dir (dir m) released = opposite (prev_dir m) -> m' = m) /\
     (is_changed = true -> released_dir (dir m) released <> opposite (prev_dir m) ->
      dir m' = released_dir (dir m) released)) /\
  (forall reqs : list (bool * option KeyCode.t),
     let m' := fold_left (fun m0 r => control_snake m0 (fst r) (snd r)) reqs m in
     prev_dir m' = prev_dir m /\ len m' = len m /\
     (dir m' = dir m \/ dir m' <> opposite (prev_dir m))).
Proof.
  split.
  - intros c k; cbv zeta; unfold control_snake.
    destruct c; [|repeat split; intros; congruence].
    destruct (direction_eqb (released_dir (dir m) k) (opposite (prev_dir m))) eqn:E; simpl.
    + apply direction_eqb_eq in E.
      repeat split; intros; congruence.
    + split; [reflexivity|]; split; [reflexivity|]; split.
      * intros Heq; rewrite Heq, (proj2 (direction_eqb_eq _ _) eq_refl) in E; discriminate.
      * intros _ _; reflexivity.
  - intros reqs; cbv zeta.
    assert (Hgen : forall m0, prev_dir m0 = prev_dir m -> len m0 = len m ->
              dir m0 = dir m \/ dir m0 <> opposite (prev_dir m) ->
              let m' := fold_left (fun m1 r => control_snake m1 (fst r) (snd r)) reqs m0 in
              prev_dir m' = prev_dir m /\ len m' = len m /\
              (dir m' = dir m \/ dir m' <> opposite (prev_dir m))).
    { induction reqs as [|[c k] reqs IH]; intros m0 Hp Hl Hd; cbv zeta; simpl;
        [auto|].
      apply IH; unfold control_snake; destruct c; auto;
        destruct (direction_eqb (released_dir (dir m0) k) (opposite (prev_dir m0))) eqn:E;
        simpl; auto.
      right; intros Heq; rewrite Hp, <- Heq in E.
      rewrite (proj2 (direction_eqb_eq _ _) eq_refl) in E; discriminate. }
    apply Hgen; auto.
Qed.

(** C6: the food spawner does nothing while food exists; otherwise it
    spawns at most one food item, on an unoccupied in-bounds tile. When the
    occupied count equals [x_size * y_size], or every tile of the scene is
    occupied, it returns normally (no panic) and spawns nothing; the only
    precondition is that [x_size * y_size] fits in a [u32]. *)
Theorem respawn_food_never_on_occupied (sc : Scene) (foods : list (Entity * Pos))
  (occupied : list Pos) (rng : nat -> Pos) :
  (forall i, in_scene sc (rng i)) ->
  (foods <> [] -> respawn_food sc foods occupied rng = Some []) /\
  (forall cs, respawn_food sc foods occupied rng = Some cs ->
     (length cs <= 1)%nat /\
     (forall c, In c cs -> exists p, c = SpawnFood p /\ ~ In p occupied /\ in_scene sc p)) /\
  (x_size sc * y_size sc <= U32_MAX ->
   Z.of_nat (length (nodup Pos_eq_dec occupied)) = x_size sc * y_size sc ->
   respawn_food sc foods occupied rng = Some []) /\
  (x_size sc * y_size sc <= U32_MAX ->
   (forall p, in_scene sc p -> In p occupied) ->
   respawn_food sc foods occupied rng = Some []).
Proof.
  intros Hrng.
  assert (Hg : gen_range_ok (x_size sc) && gen_range_ok (y_size sc) = true).
  { destruct (Hrng 0%nat) as [[Hx0 Hx] [Hy0 Hy]]; unfold gen_range_ok.
    apply andb_true_intro; split; apply Z.ltb_lt; lia. }
  assert (Hfull : x_size sc * y_size sc <= U32_MAX ->
            (Z.of_nat (length (nodup Pos_eq_dec occupied)) = x_size sc * y_size sc \/
             (forall p, in_scene sc p -> In p occupied)) ->
            respawn_food sc foods occupied rng = Some []).
  { intros Hb Hf; unfold respawn_food; destruct foods as [|f fs]; [|reflexivity].
    unfold checked_mul_u32; apply Z.leb_le in Hb; rewrite Hb.
    destruct (Z.of_nat (length (nodup Pos_eq_dec occupied)) =? x_size sc * y_size sc) eqn:Ec;
      [reflexivity|].
    destruct Hf as [Hf|Hall]; [apply Z.eqb_neq in Ec; contradiction|].
    rewrite Hg; cbn [negb length try_random].
    assert (Hin : pos_mem (rng 0%nat) (nodup Pos_eq_dec occupied) = true)
      by (apply pos_mem_In, nodup_In, Hall, Hrng).
    rewrite Hin, scan_none; [reflexivity|].
    intros p Hp; apply nodup_In, Hall, Hp. }
  split; [|split; [|split]].
  - intros Hne; destruct foods; [contradiction|reflexivity].
  - intros cs H; unfold respawn_food in H.
    destruct foods as [|f fs].
    2:{ injection H as <-; simpl; split; [lia|intros c []]. }
    destruct (checked_mul_u32 (x_size sc) (y_size sc)) as [total|]; [|discriminate].
    destruct (Z.of_nat (length (nodup Pos_eq_dec occupied)) =? total).
    { injection H as <-; simpl; split; [lia|intros c []]. }
    rewrite Hg in H; cbn [negb length] in H.
    destruct (try_random 1 0 rng (nodup Pos_eq_dec occupied)) as [p|] eqn:Er.
    + injection H as <-.
      apply try_random_some in Er as [[j ->] Hn]; rewrite nodup_In in Hn.
      simpl; split; [lia|]; intros c [<-|[]]; exists (rng j); auto.
    + destruct (scan sc (nodup Pos_eq_dec occupied)) as [p|] eqn:Es.
      * injection H as <-.
        apply scan_some in Es as [Hp Hn]; rewrite nodup_In in Hn.
        simpl; split; [lia|]; intros c [<-|[]]; exists p; auto.
      * injection H as <-; simpl; split; [lia|intros c []].
  - intros Hb Hc; apply Hfull; auto.
  - intros Hb Ha; apply Hfull; auto.
Qed.

(** ** Deferred commands *)

Lemma filter_filter_and {A} (f g : A -> bool) (l : list A) :
  filter f (filter g l) = filter (fun a => g a && f a) l.
Proof.
  induction l as [|a l IH]; simpl; [reflexivity|].
  destruct (g a); simpl; [destruct (f a); simpl|]; rewrite IH; reflexivity.
Qed.

Lemma existsb_eqb_In (e : Entity) (l : list Entity) : existsb (Nat.eqb e) l = true <-> In e l.
Proof.
  rewrite existsb_exists; split.
  - intros [e' [H He]]; apply Nat.eqb_eq in He; subst; exact H.
  - intros H; exists e; split; [exact H | apply Nat.eqb_refl].
Qed.

Lemma apply_commands_app (w : World) (a b : list Command) :
  apply_commands w (a ++ b) = apply_commands (apply_commands w a) b.
Proof. unfold apply_commands; apply fold_left_app. Qed.

(** Commands never touch the scene, the walls or the snake entity. *)
Lemma apply_commands_static (cs : list Command) (w : World) :
  let w' := apply_commands w cs in
  (scene w', walls w', snake_id w', snake_pos w', snake_meta w', snake_changed w') =
  (scene w, walls w, snake_id w, snake_pos w, snake_meta w, snake_changed w).
Proof.
  revert w; induction cs as [|c cs IH]; intros w; [reflexivity|].
  cbv zeta; unfold apply_commands in *; simpl; rewrite IH; destruct c; reflexivity.
Qed.

Lemma apply_despawns (es : list Entity) (w : World) :
  apply_commands w (map Despawn es) =
  mkWorld (scene w) (walls w) (snake_id w) (snake_pos w) (snake_meta w) (snake_changed w)
    (filter (fun s => negb (existsb (Nat.eqb (seg_id s)) es)) (body w))
    (filter (fun f => negb (existsb (Nat.eqb (fst f)) es)) (food w))
    (next_entity w).
Proof.
  revert w; induction es as [|e es IH]; intros w.
  - simpl; rewrite !filter_true; destruct w; reflexivity.
  - unfold apply_commands in *; cbn [map fold_left]; rewrite IH; simpl.
    rewrite !filter_filter_and; f_equal; apply filter_ext; intros a;
      rewrite negb_orb; reflexivity.
Qed.

(** ** The systems, one at a time *)

Lemma move_snake_spec (m m' : SnakeMeta) (p p' : Pos) (cs : list Command) :
  move_snake m p = Some (m', p', cs) ->
  p' = step_pos (dir m) p /\ m' = mkSnakeMeta (len m) (dir m) (dir m) /\
  cs = [SpawnSnakeBody p].
Proof.
  unfold move_snake, checked_add_u32, checked_sub_u32, step_pos.
  destruct (dir m);
    [destruct (y p + 1 <=? U32_MAX) | destruct (1 <=? y p)
    | destruct (1 <=? x p) | destruct (x p + 1 <=? U32_MAX)];
    simpl; intros H; inversion H; subst; auto.
Qed.

Lemma eat_food_spec (m m' : SnakeMeta) (p : Pos) (foods : list (Entity * Pos))
  (cs : list Command) :
  eat_food m p foods = Some (m', cs) ->
  (m' = m /\ cs = [] /\ (forall f, In f foods -> snd f <> p)) \/
  (exists et, In (et, p) foods /\ cs = [Despawn et] /\
   len m' = len m + 1 /\ dir m' = dir m /\ prev_dir m' = prev_dir m).
Proof.
  induction foods as [|[et fp] rest IH]; simpl; intros H.
  - injection H as <- <-; left; auto.
  - destruct (pos_eqb p fp) eqn:E.
    + apply pos_eqb_eq in E; subst fp.
      unfold checked_add_u32 in H; destruct (len m + 1 <=? U32_MAX); [|discriminate].
      injection H as <- <-; right; exists et; simpl; auto.
    + destruct (IH H) as [[-> [-> Hn]] | [e [Hin Hrest]]].
      * left; repeat split; intros f [<-|Hf]; [|auto].
        simpl; intros ->; rewrite (proj2 (pos_eqb_eq p p) eq_refl) in E; discriminate.
      * right; exists e; auto.
Qed.

Lemma despawn_old_spec (m : SnakeMeta) (segs segs' : list Seg) (cs : list Command) :
  despawn_old m segs = Some (segs', cs) ->
  segs' = map (fun s => mkSeg (seg_id s) (seg_pos s) (seg_age s + 1)) segs /\
  cs = map Despawn (map seg_id (filter (fun s => seg_age s + 1 =? len m) segs')).
Proof.
  revert segs' cs; induction segs as [|s rest IH]; simpl; intros segs' cs H.
  - injection H as <- <-; auto.
  - unfold checked_add_u32 in H.
    destruct (seg_age s + 1 <=? U32_MAX); [|discriminate].
    destruct (seg_age s + 1 + 1 <=? U32_MAX); [|discriminate].
    destruct (despawn_old m rest) as [[r c]|]; [|discriminate].
    injection H as <- <-; destruct (IH r c eq_refl) as [-> ->]; split; [reflexivity|].
    simpl; destruct (seg_age s + 1 + 1 =? len m); reflexivity.
Qed.

(** ** One run of the fixed-timestep set *)

Lemma fixed_update_spec (w w' : World) :
  fixed_update w = Some w' ->
  let m := snake_meta w in
  let m1 := mkSnakeMeta (len m) (dir m) (dir m) in
  let p1 := step_pos (dir m) (snake_pos w) in
  let body1 := map (fun s => mkSeg (seg_id s) (seg_pos s) (seg_age s + 1)) (body w) in
  exists m2 es2,
    ((m2 = m1 /\ es2 = [] /\ (forall f, In f (food w) -> snd f <> p1)) \/
     (exists et, In (et, p1) (food w) /\ es2 = [et] /\
      len m2 = len m + 1 /\ dir m2 = dir m /\ prev_dir m2 = dir m)) /\
    let es := es2 ++ map seg_id (filter (fun s => seg_age s + 1 =? len m2) body1) in
    w' = mkWorld (scene w) (walls w) (snake_id w) p1 m2 true
           (filter (fun s => negb (existsb (Nat.eqb (seg_id s)) es))
              (body1 ++ [mkSeg (next_entity w) (snake_pos w) 0]))
           (filter (fun f => negb (existsb (Nat.eqb (fst f)) es)) (food w))
           (S (next_entity w)).
Proof.
  unfold fixed_update.
  destruct (move_snake (snake_meta w) (snake_pos w)) as [[[m1 p1] c1]|] eqn:Em;
    [|discriminate].
  apply move_snake_spec in Em as [-> [-> ->]].
  destruct (eat_food _ _ (food w)) as [[m2 c2]|] eqn:Ee; [|discriminate].
  destruct (despawn_old m2 (body w)) as [[b2 c3]|] eqn:Ed; [|discriminate].
  intros H; injection H as <-; cbv zeta.
  apply despawn_old_spec in Ed as [-> ->].
  destruct (eat_food_spec _ _ _ _ _ Ee) as [[-> [-> Hn]] | [et [Hin [-> Hrest]]]].
  - exists (mkSnakeMeta (len (snake_meta w)) (dir (snake_meta w)) (dir (snake_meta w))), [].
    split; [left; auto|].
    rewrite apply_commands_app, app_nil_l, apply_despawns; reflexivity.
  - exists m2, [et]; split; [right; exists et; simpl in Hrest; auto|].
    change ([Despawn et] ++ map Despawn ?l) with (map Despawn (et :: l)).
    rewrite apply_despawns; reflexivity.
Qed.

Lemma NoDup_map_inj {A B} (f : A -> B) (l : list A) (a b : A) :
  NoDup (map f l) -> In a l -> In b l -> f a = f b -> a = b.
Proof.
  induction l as [|c l IH]; simpl; [contradiction|].
  intros Hnd Ha Hb Hf; inversion Hnd as [|? ? Hc Hl]; subst.
  destruct Ha as [<-|Ha], Hb as [<-|Hb]; auto.
  - exfalso; apply Hc; rewrite Hf; apply in_map; exact Hb.
  - exfalso; apply Hc; rewrite <- Hf; apply in_map; exact Ha.
Qed.

Lemma NoDup_app_disj {A} (l1 l2 : list A) (a : A) :
  NoDup (l1 ++ l2) -> In a l1 -> ~ In a l2.
Proof.
  induction l1 as [|b l1 IH]; simpl; [contradiction|].
  intros Hnd [<-|Ha] Hin; inversion Hnd as [|? ? Hb Hl]; subst.
  - apply Hb, in_or_app; right; exact Hin.
  - exact (IH Hl Ha Hin).
Qed.

Lemma NoDup_map_filter {A B} (h : A -> B) (f : A -> bool) (l : list A) :
  NoDup (map h l) -> NoDup (map h (filter f l)).
Proof.
  induction l as [|a l IH]; simpl; [auto|].
  intros Hnd; inversion Hnd as [|? ? Ha Hl]; subst.
  destruct (f a); simpl; [constructor|]; auto.
  intros Hin; apply Ha; apply in_map_iff in Hin as [b [Hb Hin]].
  apply filter_In in Hin; rewrite <- Hb; apply in_map; tauto.
Qed.

Lemma NoDup_app_filter {A B C} (h : A -> C) (k : B -> C) (f : A -> bool) (g : B -> bool)
  (l1 : list A) (l2 : list B) :
  NoDup (map h l1 ++ map k l2) -> NoDup (map h (filter f l1) ++ map k (filter g l2)).
Proof.
  intros Hnd; apply NoDup_app.
  - apply NoDup_map_filter, (NoDup_app_remove_r _ _ Hnd).
  - apply NoDup_map_filter, (NoDup_app_remove_l _ _ Hnd).
  - intros c H1 H2.
    apply in_map_iff in H1 as [a [<- H1]]; apply in_map_iff in H2 as [b [Hb H2]].
    apply filter_In in H1, H2.
    apply (NoDup_app_disj _ _ (h a) Hnd); [apply in_map; tauto|].
    rewrite <- Hb; apply in_map; tauto.
Qed.

(** Despawning the ids of the segments satisfying [P] (plus ids foreign
    to the list) removes exactly those segments. *)
Lemma despawn_filter (l : list Seg) (extra : list Entity) (P : Seg -> bool) :
  NoDup (map seg_id l) -> (forall e, In e extra -> ~ In e (map seg_id l)) ->
  filter (fun s => negb (existsb (Nat.eqb (seg_id s)) (extra ++ map seg_id (filter P l)))) l =
  filter (fun s => negb (P s)) l.
Proof.
  intros Hnd Hext; apply filter_ext_in; intros s Hs; f_equal.
  destruct (P s) eqn:EP.
  - apply existsb_eqb_In, in_or_app; right; apply in_map, filter_In; auto.
  - destruct (existsb (Nat.eqb (seg_id s)) _) eqn:E; [|reflexivity].
    apply existsb_eqb_In, in_app_or in E as [E|E].
    + exfalso; apply (Hext _ E); apply in_map; exact Hs.
    + apply in_map_iff in E as [t [Ht E]]; apply filter_In in E as [Et Pt].
      rewrite (NoDup_map_inj seg_id l t s Hnd Et Hs Ht) in Pt; congruence.
Qed.

Lemma in_map_filter {A B} (h : A -> B) (f : A -> bool) (l : list A) (b : B) :
  In b (map h (filter f l)) -> In b (map h l).
Proof.
  rewrite !in_map_iff; intros [a [Ha Hin]]; apply filter_In in Hin; exists a; tauto.
Qed.

Lemma filter_all {A} (f : A -> bool) (l : list A) :
  (forall a, In a l -> f a = true) -> filter f l = l.
Proof. intros H; rewrite (filter_ext_in f (fun _ => true)), filter_true; auto. Qed.

Lemma map_seg_id_inc (l : list Seg) :
  map seg_id (map (fun s => mkSeg (seg_id s) (seg_pos s) (seg_age s + 1)) l) = map seg_id l.
Proof. rewrite map_map; apply map_ext; reflexivity. Qed.

(** One fixed-timestep run keeps [wf]; the new trail is the aged old trail
    without the segments reaching [age + 1 == len], followed by the new
    segment at the old head. *)
Lemma fixed_update_wf_body (w w' : World) :
  wf w -> fixed_update w = Some w' ->
  wf w' /\
  body w' = filter (fun s => negb (seg_age s + 1 =? len (snake_meta w')))
              (map (fun s => mkSeg (seg_id s) (seg_pos s) (seg_age s + 1)) (body w))
            ++ [mkSeg (next_entity w) (snake_pos w) 0].
Proof.
  intros [Hnd [Hlt Hage]] H.
  pose proof (fixed_update_spec _ _ H) as Hs; cbv zeta in Hs.
  destruct Hs as [m2 [es2 [Heat ->]]]; simpl.
  set (body1 := map (fun s => mkSeg (seg_id s) (seg_pos s) (seg_age s + 1)) (body w)).
  set (P := fun s => seg_age s + 1 =? len m2).
  assert (Hids1 : map seg_id body1 = map seg_id (body w)) by apply map_seg_id_inc.
  assert (Hlt' : forall e, In e (ids_of w) -> (e < next_entity w)%nat)
    by (apply Forall_forall; exact Hlt).
  assert (Hes2 : forall e, In e es2 -> In e (map fst (food w))).
  { destruct Heat as [[_ [-> _]] | [et [Hin [-> _]]]]; simpl; [contradiction|].
    intros e [<-|[]]; apply in_map with (f := fst) in Hin; exact Hin. }
  assert (Hfresh : existsb (Nat.eqb (next_entity w)) (es2 ++ map seg_id (filter P body1)) = false).
  { destruct existsb eqn:E; [|reflexivity].
    apply existsb_eqb_In, in_app_or in E.
    assert (Hin : In (next_entity w) (ids_of w)).
    { unfold ids_of; apply in_or_app; destruct E as [E|E].
      - right; apply Hes2, E.
      - left; rewrite <- Hids1; exact (in_map_filter _ _ _ _ E). }
    apply Hlt' in Hin; lia. }
  assert (Hbody : filter (fun s => negb (existsb (Nat.eqb (seg_id s))
                     (es2 ++ map seg_id (filter P body1)))) (body1 ++ [mkSeg (next_entity w) (snake_pos w) 0])
                  = filter (fun s => negb (P s)) body1 ++ [mkSeg (next_entity w) (snake_pos w) 0]).
  { rewrite filter_app; simpl; rewrite Hfresh; simpl; f_equal.
    apply despawn_filter.
    - rewrite Hids1; exact (NoDup_app_remove_r _ _ Hnd).
    - intros e He Hb; rewrite Hids1 in Hb.
      exact (NoDup_app_disj _ _ e Hnd Hb (Hes2 e He)). }
  rewrite Hbody; split; [|reflexivity].
  unfold wf, ids_of; simpl; rewrite map_app; simpl.
  set (X := map seg_id (filter (fun s => negb (P s)) body1)).
  set (Y := map fst (filter (fun f => negb (existsb (Nat.eqb (fst f))
                (es2 ++ map seg_id (filter P body1)))) (food w))).
  assert (HX : forall e, In e (X ++ Y) -> In e (ids_of w)).
  { intros e He; apply in_app_or in He; unfold ids_of; apply in_or_app.
    destruct He as [He|He]; [left; rewrite <- Hids1|right]; exact (in_map_filter _ _ _ _ He). }
  repeat split.
  - rewrite <- app_assoc; simpl.
    apply Permutation_NoDup with (l := next_entity w :: X ++ Y);
      [apply Permutation_middle|].
    constructor.
    + intros Hin; apply HX, Hlt' in Hin; lia.
    + unfold X, Y; apply NoDup_app_filter; rewrite Hids1; exact Hnd.
  - apply Forall_forall; intros e He.
    rewrite <- app_assoc in He; apply in_app_or in He as [He|[<-|He]].
    + assert (Hin : In e (X ++ Y)) by (apply in_or_app; left; exact He).
      apply HX, Hlt' in Hin; lia.
    + lia.
    + assert (Hin : In e (X ++ Y)) by (apply in_or_app; right; exact He).
      apply HX, Hlt' in Hin; lia.
  - apply Forall_app; split; [|repeat constructor; simpl; lia].
    apply Forall_forall; intros s Hs; apply filter_In in Hs as [Hs _].
    unfold body1 in Hs; apply in_map_iff in Hs as [t [<- Ht]]; simpl.
    rewrite Forall_forall in Hage; specialize (Hage t Ht); lia.
Qed.

(** ** Ages of the trail *)

Lemma desc_length (m : nat) : length (desc m) = m.
Proof. induction m; simpl; auto. Qed.

Lemma desc_In (a : Z) (m : nat) : In a (desc m) -> 0 <= a < Z.of_nat m.
Proof. induction m as [|k IH]; simpl; [contradiction|]; intros [<-|H]; [|apply IH in H]; lia. Qed.

Lemma desc_shift (m : nat) : map (fun a => a + 1) (desc m) ++ [0] = desc (S m).
Proof.
  induction m as [|k IH]; [reflexivity|].
  transitivity ((Z.of_nat k + 1) :: (map (fun a => a + 1) (desc k) ++ [0]));
    [reflexivity|].
  rewrite IH; change (desc (S (S k))) with (Z.of_nat (S k) :: desc (S k)).
  f_equal; lia.
Qed.

(** Ageing a trail with ages [desc m] and pruning at [len = L]. *)
Lemma prune_desc (m : nat) (L : Z) :
  Z.of_nat m <= L - 1 -> 1 <= L - 1 ->
  filter (fun a => negb (a + 1 =? L)) (map (fun a => a + 1) (desc m)) ++ [0] =
  if Z.of_nat m =? L - 1 then desc m else desc (S m).
Proof.
  intros Hm HL; destruct (Z.of_nat m =? L - 1) eqn:E.
  - apply Z.eqb_eq in E; destruct m as [|k]; [simpl in E; lia|].
    simpl; replace (Z.of_nat k + 1 + 1 =? L) with true by (symmetry; apply Z.eqb_eq; lia).
    simpl; rewrite filter_all; [apply desc_shift|].
    intros a Ha; apply in_map_iff in Ha as [b [<- Hb]]; apply desc_In in Hb.
    apply negb_true_iff, Z.eqb_neq; lia.
  - apply Z.eqb_neq in E; rewrite filter_all; [apply desc_shift|].
    intros a Ha; apply in_map_iff in Ha as [b [<- Hb]]; apply desc_In in Hb.
    apply negb_true_iff, Z.eqb_neq; lia.
Qed.

(** ** The trail invariant over frames *)

Lemma fixed_update_trail (n : nat) (w w' : World) :
  trail_inv n w -> fixed_update w = Some w' -> trail_inv (S n) w'.
Proof.
  intros [Hwf [H4 [Hages Hcnt]]] H.
  destruct (fixed_update_wf_body _ _ Hwf H) as [Hwf' Hbody].
  pose proof (fixed_update_spec _ _ H) as Hs; cbv zeta in Hs.
  destruct Hs as [m2 [es2 [Heat Hw']]].
  assert (Hm : snake_meta w' = m2) by (rewrite Hw'; reflexivity).
  assert (HL : len (snake_meta w') = len (snake_meta w) \/
               len (snake_meta w') = len (snake_meta w) + 1).
  { rewrite Hm; destruct Heat as [[-> _] | [et [_ [_ [Hl _]]]]]; [left|right]; auto. }
  clear Hw' Heat.
  set (L := len (snake_meta w')) in *.
  set (m := length (body w)) in *.
  assert (Hages' : map seg_age (body w') =
                   if Z.of_nat m =? L - 1 then desc m else desc (S m)).
  { rewrite Hbody, map_app; cbn [map seg_age].
    set (body1 := map (fun s => mkSeg (seg_id s) (seg_pos s) (seg_age s + 1)) (body w)).
    replace (map seg_age (filter (fun s => negb (seg_age s + 1 =? L)) body1))
      with (filter (fun a => negb (a + 1 =? L)) (map seg_age body1))
      by (rewrite filter_map_swap; reflexivity).
    unfold body1.
    replace (map seg_age (map (fun s => mkSeg (seg_id s) (seg_pos s) (seg_age s + 1)) (body w)))
      with (map (fun a => a + 1) (desc m)) by (rewrite <- Hages, !map_map; reflexivity).
    apply prune_desc; lia. }
  assert (Hlen : length (body w') = if Z.of_nat m =? L - 1 then m else S m).
  { rewrite <- length_map with (f := seg_age), Hages'.
    destruct (_ =? _); apply desc_length. }
  split; [exact Hwf'|]; split; [lia|]; split.
  - rewrite Hages', Hlen; destruct (_ =? _); reflexivity.
  - rewrite Hlen; destruct (Z.of_nat m =? L - 1) eqn:E;
      [apply Z.eqb_eq in E | apply Z.eqb_neq in E]; lia.
Qed.

Lemma fixed_updates_trail (k n : nat) (w w' : World) :
  trail_inv n w -> fixed_updates k w = Some w' -> trail_inv (k + n) w'.
Proof.
  revert n w; induction k as [|k IH]; simpl; intros n w Hinv H.
  - injection H as <-; exact Hinv.
  - destruct (fixed_update w) as [w1|] eqn:E; [|discriminate].
    rewrite <- Nat.add_succ_r; exact (IH _ _ (fixed_update_trail _ _ _ Hinv E) H).
Qed.

Lemma control_snake_len (m : SnakeMeta) (c : bool) (k : option KeyCode.t) :
  len (control_snake m c k) = len m.
Proof.
  unfold control_snake; destruct c; [destruct (negb _)|]; reflexivity.
Qed.

Lemma respawn_food_cmds (sc : Scene) (foods : list (Entity * Pos)) (occ : list Pos)
  (rng : nat -> Pos) (cs : list Command) :
  respawn_food sc foods occ rng = Some cs -> cs = [] \/ exists p, cs = [SpawnFood p].
Proof.
  unfold respawn_food; destruct foods; [|intros H; injection H as <-; auto].
  destruct checked_mul_u32; [|discriminate].
  destruct (_ =? _); [intros H; injection H as <-; auto|].
  destruct (negb _); [discriminate|].
  destruct try_random; [intros H; injection H as <-; eauto|].
  destruct scan; intros H; injection H as <-; eauto.
Qed.

Lemma spawn_food_wf (w : World) (p : Pos) : wf w -> wf (apply_command w (SpawnFood p)).
Proof.
  intros [Hnd [Hlt Hage]]; unfold wf, ids_of in *; simpl.
  rewrite map_app, app_assoc; simpl; repeat split; [| |exact Hage].
  - apply NoDup_app; [exact Hnd|repeat constructor; simpl; auto|].
    intros e He [<-|[]]; rewrite Forall_forall in Hlt; specialize (Hlt _ He); lia.
  - apply Forall_app; split; [|repeat constructor; lia].
    eapply Forall_impl; [|exact Hlt]; simpl; intros; lia.
Qed.

(** The tail of a frame ([POST_SNAKE]) keeps the snake and the trail. *)
Lemma frame_spec (w : World) (inp : FrameInput) (w' : World) (out : option (list Entity)) :
  frame w inp = Some (w', out) ->
  exists w1 cs,
    fixed_updates (fixed_runs inp)
      (set_snake w (snake_pos w)
         (control_snake (snake_meta w) (keys_changed inp) (key_released inp))
         (snake_changed w)) = Some w1 /\
    respawn_food (scene w1) (food w1) (map snd (collidables w1)) (rng inp) = Some cs /\
    (cs = [] \/ exists p, cs = [SpawnFood p]) /\
    out = check_snake_collides (snake_changed w1) (snake_id w1) (snake_pos w1)
            (collidables w1) /\
    w' = apply_commands (set_snake w1 (snake_pos w1) (snake_meta w1) false) cs.
Proof.
  unfold frame; destruct fixed_updates as [w1|]; [|discriminate].
  destruct respawn_food as [cs|] eqn:E; [|discriminate].
  intros H; injection H as <- <-; exists w1, cs; repeat split; auto.
  exact (respawn_food_cmds _ _ _ _ _ E).
Qed.

Lemma frame_trail (n : nat) (w : World) (inp : FrameInput) (w' : World)
  (out : option (list Entity)) :
  trail_inv n w -> frame w inp = Some (w', out) -> trail_inv (fixed_runs inp + n) w'.
Proof.
  intros Hinv H; apply frame_spec in H as [w1 [cs [Hf [_ [Hcs [_ ->]]]]]].
  assert (Hinv0 : trail_inv n (set_snake w (snake_pos w)
            (control_snake (snake_meta w) (keys_changed inp) (key_released inp))
            (snake_changed w))).
  { unfold trail_inv, set_snake in *; simpl; rewrite control_snake_len; exact Hinv. }
  pose proof (fixed_updates_trail _ _ _ _ Hinv0 Hf) as Hf'; clear Hf; rename Hf' into Hf.
  destruct Hcs as [-> | [p ->]]; [exact Hf|].
  destruct Hf as [Hwf Hrest]; split; [apply spawn_food_wf, Hwf|exact Hrest].
Qed.

Lemma reachable_trail (n : nat) (w : World) : reachable n w -> trail_inv n w.
Proof.
  induction 1 as [|n w inp w' out Hr IH Hrng Hf].
  - unfold trail_inv, wf, ids_of; simpl.
    split; [split; [constructor | split; constructor] | split; [lia | split; reflexivity]].
  - exact (frame_trail _ _ _ _ _ IH Hf).
Qed.

(** ** Frames: scene, snake fields and change flag *)

Lemma fixed_updates_fields (k : nat) (w w1 : World) :
  fixed_updates k w = Some w1 ->
  scene w1 = scene w /\ walls w1 = walls w /\ snake_id w1 = snake_id w /\
  (k = 0%nat -> w1 = w) /\ (k <> 0%nat -> snake_changed w1 = true).
Proof.
  revert w; induction k as [|k IH]; simpl; intros w H.
  - injection H as <-; repeat split; auto; intros; congruence.
  - destruct (fixed_update w) as [w2|] eqn:E; [|discriminate].
    apply fixed_update_spec in E; cbv zeta in E.
    destruct E as [m2 [es2 [_ ->]]].
    destruct (IH _ H) as [Hs [Hw [Hi [H0 H1]]]]; simpl in *.
    repeat split; auto; [discriminate|].
    intros _; destruct k; [rewrite (H0 eq_refl); reflexivity | apply H1; discriminate].
Qed.

Lemma frame_scene (w : World) (inp : FrameInput) (w' : World) (out : option (list Entity)) :
  frame w inp = Some (w', out) -> scene w' = scene w.
Proof.
  intros H; apply frame_spec in H as [w1 [cs [Hf [_ [_ [_ ->]]]]]].
  apply fixed_updates_fields in Hf as [Hs _].
  pose proof (apply_commands_static cs (set_snake w1 (snake_pos w1) (snake_meta w1) false))
    as Hst; cbv zeta in Hst; injection Hst as Hsc _ _ _ _ _.
  rewrite Hsc; exact Hs.
Qed.

Lemma reachable_scene (n : nat) (w : World) : reachable n w -> scene w = mkScene 10 10.
Proof.
  induction 1 as [|n w inp w' out Hr IH Hrng Hf]; [reflexivity|].
  rewrite (frame_scene _ _ _ _ Hf); exact IH.
Qed.

Lemma reachable_changed (n : nat) (w : World) :
  reachable n w -> w = init_world \/ snake_changed w = false.
Proof.
  destruct 1 as [|n w inp w' out Hr Hrng Hf]; [left; reflexivity|right].
  apply frame_spec in Hf as [w1 [cs [_ [_ [_ [_ ->]]]]]].
  pose proof (apply_commands_static cs (set_snake w1 (snake_pos w1) (snake_meta w1) false))
    as Hst; cbv zeta in Hst; injection Hst as _ _ _ _ _ Hch; exact Hch.
Qed.

Lemma run_frames_reachable (inps : list FrameInput) (n : nat) (w w' : World) :
  reachable n w ->
  (forall inp, In inp inps -> forall i, in_scene (mkScene 10 10) (rng inp i)) ->
  run_frames w inps = Some w' ->
  reachable (list_sum (map fixed_runs inps) + n) w'.
Proof.
  revert n w; induction inps as [|inp inps IH]; simpl; intros n w Hr Hrng H.
  - injection H as <-; exact Hr.
  - destruct (frame w inp) as [[w1 o]|] eqn:E; [|discriminate].
    replace (fixed_runs inp + list_sum (map fixed_runs inps) + n)%nat
      with (list_sum (map fixed_runs inps) + (fixed_runs inp + n))%nat by lia.
    apply (IH _ w1); auto.
    apply (reach_frame n w inp w1 o Hr); [|exact E].
    rewrite (reachable_scene _ _ Hr); apply Hrng; left; reflexivity.
Qed.

(** Each fixed-timestep run grows [len] by at most one, and only when
    some food lies on the new head tile. *)
Lemma fixed_update_len (w w' : World) :
  fixed_update w = Some w' ->
  len (snake_meta w') = len (snake_meta w) \/
  (len (snake_meta w') = len (snake_meta w) + 1 /\
   exists f, In f (food w) /\ snd f = snake_pos w').
Proof.
  intros H; apply fixed_update_spec in H; cbv zeta in H.
  destruct H as [m2 [es2 [[[-> _] | [et [Hin [_ [Hl _]]]]] ->]]]; simpl; [left; reflexivity|].
  right; split; [exact Hl|]; exists (et, step_pos (dir (snake_meta w)) (snake_pos w)); auto.
Qed.

Lemma fixed_updates_len (k : nat) (w w' : World) :
  fixed_updates k w = Some w' -> len (snake_meta w) <= len (snake_meta w').
Proof.
  revert w; induction k as [|k IH]; simpl; intros w H.
  - injection H as <-; lia.
  - destruct (fixed_update w) as [w1|] eqn:E; [|discriminate].
    apply IH in H; destruct (fixed_update_len _ _ E) as [Hl|[Hl _]]; lia.
Qed.

(** ** Claims about ticks and frames *)

(** C1 (counterexample): after the first tick from startup the trail holds
    one segment, while [len - 1 = 3]. *)
Lemma trail_length_first_tick :
  exists w, reachable 1 w /\ Z.of_nat (length (body w)) = 1 /\ len (snake_meta w) - 1 = 3.
Proof.
  exists (match run_frames init_world [tick_input] with Some w => w | None => init_world end).
  split; [|vm_compute; split; reflexivity].
  apply (run_frames_reachable [tick_input] 0 init_world); [constructor| |vm_compute; reflexivity].
  intros inp [<-|[]] i; unfold in_scene; simpl; lia.
Qed.

(** C1 (amended): after [n] fixed-timestep runs since startup the trail
    holds [min n (len - 1)] segments: it grows by one per tick until it
    reaches [len - 1], then stays equal to [len - 1]. *)
Theorem trail_length_after_tick (n : nat) (w : World) :
  reachable n w -> Z.of_nat (length (body w)) = Z.min (Z.of_nat n) (len (snake_meta w) - 1).
Proof. intros H; exact (proj2 (proj2 (proj2 (reachable_trail _ _ H)))). Qed.

Lemma trail_length_after_tick_witness :
  let w := match run_frames init_world [tick_input; tick_input; tick_input; tick_input]
           with Some w => w | None => init_world end in
  reachable 4 w /\ Z.of_nat (length (body w)) = Z.min (Z.of_nat 4) (len (snake_meta w) - 1).
Proof.
  intros w.
  assert (Hr : reachable 4 w).
  { apply (run_frames_reachable [tick_input; tick_input; tick_input; tick_input] 0 init_world);
      [constructor| |vm_compute; reflexivity].
    intros inp Hin i; repeat (destruct Hin as [<-|Hin]; [unfold in_scene; simpl; lia|]);
      destruct Hin. }
  split; [exact Hr | exact (trail_length_after_tick 4 w Hr)].
Defined.

(** C3: on a tick whose new head tile holds food, [len] grows by one, that
    food entity is despawned, and the tail segment that the tick would
    otherwise prune ([age + 2 == len]) is kept, aged by one: pruning
    compares against the grown [len]. *)
Theorem eat_retains_tail (w w' : World) :
  wf w -> fixed_update w = Some w' ->
  (exists f, In f (food w) /\ snd f = snake_pos w') ->
  len (snake_meta w') = len (snake_meta w) + 1 /\
  (exists et, In (et, snake_pos w') (food w) /\ ~ In et (map fst (food w'))) /\
  (forall s, In s (body w) -> seg_age s + 2 = len (snake_meta w) ->
   In (mkSeg (seg_id s) (seg_pos s) (seg_age s + 1)) (body w')).
Proof.
  intros Hwf H [f [Hf Hpf]].
  destruct (fixed_update_wf_body _ _ Hwf H) as [_ Hbody].
  pose proof (fixed_update_spec _ _ H) as Hs; cbv zeta in Hs.
  destruct Hs as [m2 [es2 [Heat Hw']]].
  assert (Hp : snake_pos w' = step_pos (dir (snake_meta w)) (snake_pos w))
    by (rewrite Hw'; reflexivity).
  assert (Hm : snake_meta w' = m2) by (rewrite Hw'; reflexivity).
  destruct Heat as [[_ [_ Hn]] | [et [Hin [Hes [Hl _]]]]].
  { exfalso; apply (Hn f Hf); rewrite Hpf; exact Hp. }
  rewrite Hm; split; [exact Hl|]; split.
  - exists et; split; [rewrite Hp; exact Hin|].
    rewrite Hw'; simpl; intros Hx; apply in_map_iff in Hx as [g [Hg Hx]].
    apply filter_In in Hx as [_ Hx]; destruct g as [ge gp]; simpl in Hg, Hx; subst ge.
    rewrite Hes in Hx; simpl in Hx; rewrite Nat.eqb_refl in Hx; discriminate.
  - intros s Hs Hage; rewrite Hbody, Hm; apply in_or_app; left.
    apply filter_In; split.
    + apply in_map_iff; exists s; auto.
    + simpl; apply negb_true_iff, Z.eqb_neq; lia.
Qed.

Lemma eat_retains_tail_witness :
  let w' := match fixed_update sample_world with Some w' => w' | None => sample_world end in
  wf sample_world /\ fixed_update sample_world = Some w' /\
  (exists f, In f (food sample_world) /\ snd f = snake_pos w') /\
  len (snake_meta w') = len (snake_meta sample_world) + 1 /\
  (exists et, In (et, snake_pos w') (food sample_world) /\ ~ In et (map fst (food w'))) /\
  (forall s, In s (body sample_world) -> seg_age s + 2 = len (snake_meta sample_world) ->
   In (mkSeg (seg_id s) (seg_pos s) (seg_age s + 1)) (body w')).
Proof.
  intros w'.
  assert (Hwf : wf sample_world).
  { unfold wf, ids_of; simpl; split; [|split].
    - repeat constructor; simpl; lia.
    - repeat constructor; lia.
    - repeat constructor; simpl; lia. }
  assert (Hfu : fixed_update sample_world = Some w') by (vm_compute; reflexivity).
  assert (Hf : exists f, In f (food sample_world) /\ snd f = snake_pos w')
    by (exists (104%nat, mkPos 7 5); vm_compute; auto).
  split; [exact Hwf|]; split; [exact Hfu|]; split; [exact Hf|].
  exact (eat_retains_tail sample_world w' Hwf Hfu Hf).
Defined.

(** C4: a tick moves the head exactly one tile along [dir] (Up: y+1,
    Down: y-1, Left: x-1, Right: x+1), sets [prev_dir] to that direction,
    and creates exactly one body segment: at the old head, with age 0;
    every other segment is an aged pre-existing one. *)
Theorem move_one_tile (w w' : World) :
  wf w -> fixed_update w = Some w' ->
  snake_pos w' = step_pos (dir (snake_meta w)) (snake_pos w) /\
  prev_dir (snake_meta w') = dir (snake_meta w) /\
  dir (snake_meta w') = dir (snake_meta w) /\
  filter (fun s => seg_age s =? 0) (body w') = [mkSeg (next_entity w) (snake_pos w) 0] /\
  (forall s, In s (body w') ->
   s = mkSeg (next_entity w) (snake_pos w) 0 \/
   exists s0, In s0 (body w) /\ s = mkSeg (seg_id s0) (seg_pos s0) (seg_age s0 + 1)).
Proof.
  intros Hwf H.
  destruct (fixed_update_wf_body _ _ Hwf H) as [_ Hbody].
  pose proof (fixed_update_spec _ _ H) as Hs; cbv zeta in Hs.
  destruct Hs as [m2 [es2 [Heat Hw']]].
  assert (Hm : prev_dir m2 = dir (snake_meta w) /\ dir m2 = dir (snake_meta w))
    by (destruct Heat as [[-> _] | [et [_ [_ [_ [Hd Hp]]]]]]; auto).
  split; [rewrite Hw'; reflexivity|].
  split; [rewrite Hw'; apply Hm|]; split; [rewrite Hw'; apply Hm|].
  rewrite Hbody; split.
  - rewrite filter_app; simpl.
    rewrite (filter_ext_in (fun s => seg_age s =? 0) (fun _ => false)), filter_false;
      [reflexivity|].
    intros s Hs; apply filter_In in Hs as [Hs _]; apply in_map_iff in Hs as [t [<- Ht]].
    destruct Hwf as [_ [_ Hage]]; rewrite Forall_forall in Hage; specialize (Hage t Ht).
    simpl; apply Z.eqb_neq; lia.
  - intros s Hs; apply in_app_or in Hs as [Hs|[<-|[]]]; [right|left; reflexivity].
    apply filter_In in Hs as [Hs _]; apply in_map_iff in Hs as [t [<- Ht]]; eauto.
Qed.

Lemma move_one_tile_witness :
  let w' := match fixed_update sample_world with Some w' => w' | None => sample_world end in
  wf sample_world /\ fixed_update sample_world = Some w' /\
  snake_pos w' = step_pos (dir (snake_meta sample_world)) (snake_pos sample_world) /\
  prev_dir (snake_meta w') = dir (snake_meta sample_world) /\
  dir (snake_meta w') = dir (snake_meta sample_world) /\
  filter (fun s => seg_age s =? 0) (body w') =
    [mkSeg (next_entity sample_world) (snake_pos sample_world) 0] /\
  (forall s, In s (body w') ->
   s = mkSeg (next_entity sample_world) (snake_pos sample_world) 0 \/
   exists s0, In s0 (body sample_world) /\ s = mkSeg (seg_id s0) (seg_pos s0) (seg_age s0 + 1)).
Proof.
  intros w'.
  assert (Hwf : wf sample_world).
  { unfold wf, ids_of; simpl; split; [|split].
    - repeat constructor; simpl; lia.
    - repeat constructor; lia.
    - repeat constructor; simpl; lia. }
  assert (Hfu : fixed_update sample_world = Some w') by (vm_compute; reflexivity).
  split; [exact Hwf|]; split; [exact Hfu|].
  exact (move_one_tile sample_world w' Hwf Hfu).
Defined.

(** C5 (code_bug): with the scene's walls occupied, a first draw on a wall
    (0, 0) and a second draw on the free tile (5, 5), the code falls back
    to the scan after one draw and places food at (1, 1); the policy with
    up to 100 draws places it at (5, 5). *)
Theorem respawn_food_single_attempt :
  let rng_ := fun i : nat => match i with O => mkPos 0 0 | S _ => mkPos 5 5 end in
  respawn_food (mkScene 10 10) [] (map snd basic_walls) rng_ = Some [SpawnFood (mkPos 1 1)] /\
  respawn_food_per_spec (mkScene 10 10) [] (map snd basic_walls) rng_ =
    Some [SpawnFood (mkPos 5 5)].
Proof. split; vm_compute; reflexivity. Qed.

Lemma respawn_food_never_on_occupied_witness :
  (forall i, in_scene (mkScene 10 10) ((fun _ : nat => mkPos 3 3) i)) /\
  (x_size (mkScene 10 10) * y_size (mkScene 10 10) <= U32_MAX ->
   Z.of_nat (length (nodup Pos_eq_dec full_scene_tiles)) =
     x_size (mkScene 10 10) * y_size (mkScene 10 10) ->
   respawn_food (mkScene 10 10) [] full_scene_tiles (fun _ => mkPos 3 3) = Some []).
Proof.
  assert (Hr : forall i, in_scene (mkScene 10 10) ((fun _ : nat => mkPos 3 3) i))
    by (intros i; unfold in_scene; simpl; lia).
  split; [exact Hr|].
  exact (proj1 (proj2 (proj2 (respawn_food_never_on_occupied (mkScene 10 10) []
           full_scene_tiles (fun _ => mkPos 3 3) Hr)))).
Defined.

(** C7 (counterexample): on the first frame after startup, with no
    fixed-timestep run, the snake does not move, yet
    [check_snake_collides] runs: the freshly inserted [Pos] counts as
    changed. *)
Lemma check_runs_without_move :
  exists w' ids, frame init_world idle_input = Some (w', Some ids) /\
  fixed_runs idle_input = 0%nat /\ snake_pos w' = snake_pos init_world.
Proof.
  exists (match frame init_world idle_input with Some (w', _) => w' | None => init_world end), [].
  vm_compute; split; [reflexivity | split; reflexivity].
Qed.

(** C7 (amended): when the check runs it reports exactly the collidable
    entities (walls and body segments) other than the head that share the
    head's tile; it runs on the frames with a fixed-timestep run (a move)
    and on the first frame after startup, where it reports nothing. *)
Theorem check_snake_collides_frames (n : nat) (w : World) (inp : FrameInput) (w' : World)
  (out : option (list Entity)) :
  reachable n w -> frame w inp = Some (w', out) ->
  (forall ids, out = Some ids ->
   forall e, In e ids <->
   exists p, In (e, p) (collidables w') /\ p = snake_pos w' /\ e <> snake_id w') /\
  (out <> None <-> (fixed_runs inp <> 0)%nat \/ w = init_world) /\
  (w = init_world -> fixed_runs inp = 0%nat -> out = Some []).
Proof.
  intros Hr H; apply frame_spec in H as [w1 [cs [Hf [_ [Hcs [Hout Hw']]]]]].
  assert (Hcoll : collidables w' = collidables w1 /\ snake_pos w' = snake_pos w1 /\
                  snake_id w' = snake_id w1)
    by (rewrite Hw'; destruct Hcs as [-> | [p ->]]; repeat split).
  destruct Hcoll as [Hc [Hp Hi]]; rewrite Hc, Hp, Hi; clear Hw' Hc Hp Hi.
  destruct (fixed_updates_fields _ _ _ Hf) as [_ [_ [_ [H0 H1]]]].
  split; [|split].
  - intros ids ->; unfold check_snake_collides in Hout.
    destruct (snake_changed w1); [|discriminate]; injection Hout as ->.
    intros e; rewrite in_map_iff; split.
    + intros [[e' p] [He Hin]]; simpl in He; subst e'.
      apply filter_In in Hin as [Hin Hb]; simpl in Hb.
      apply andb_true_iff in Hb as [Hp He]; apply pos_eqb_eq in Hp.
      apply negb_true_iff, Nat.eqb_neq in He; exists p; auto.
    + intros [p [Hin [Hp He]]]; exists (e, p); split; [reflexivity|].
      apply filter_In; split; [exact Hin|]; simpl.
      rewrite (proj2 (pos_eqb_eq _ _) (eq_sym Hp)); simpl.
      apply negb_true_iff, Nat.eqb_neq; auto.
  - rewrite Hout; unfold check_snake_collides; split.
    + intros Hs; destruct (Nat.eq_dec (fixed_runs inp) 0) as [Hk|Hk]; [|left; exact Hk].
      right; destruct (reachable_changed _ _ Hr) as [Hw|Hw]; [exact Hw|].
      rewrite (H0 Hk) in Hs; simpl in Hs; rewrite Hw in Hs; contradiction.
    + intros [Hk|Hw]; [rewrite (H1 Hk); discriminate|].
      destruct (Nat.eq_dec (fixed_runs inp) 0) as [Hk|Hk]; [|rewrite (H1 Hk); discriminate].
      rewrite (H0 Hk); subst w; discriminate.
  - intros -> Hk; rewrite Hout, (H0 Hk); vm_compute; reflexivity.
Qed.

Lemma check_snake_collides_frames_witness :
  let r := frame init_world idle_input in
  let w' := match r with Some (w', _) => w' | None => init_world end in
  let out := match r with Some (_, o) => o | None => None end in
  reachable 0 init_world /\ frame init_world idle_input = Some (w', out) /\
  (forall ids, out = Some ids ->
   forall e, In e ids <->
   exists p, In (e, p) (collidables w') /\ p = snake_pos w' /\ e <> snake_id w') /\
  (out <> None <-> (fixed_runs idle_input <> 0)%nat \/ init_world = init_world) /\
  (init_world = init_world -> fixed_runs idle_input = 0%nat -> out = Some []).
Proof.
  intros r w' out.
  assert (Hf : frame init_world idle_input = Some (w', out)) by (vm_compute; reflexivity).
  split; [constructor|]; split; [exact Hf|].
  exact (check_snake_collides_frames 0 init_world idle_input w' out reach_init Hf).
Defined.

(** C8 (counterexample): nothing clamps or rejects a move past the scene's
    width: five ticks to the right from startup put the head at (10, 5),
    outside the 10 x 10 scene. *)
Lemma head_leaves_scene :
  exists w, reachable 5 w /\ snake_pos w = mkPos 10 5 /\ ~ in_scene (scene w) (snake_pos w).
Proof.
  set (inps := [tick_input; tick_input; tick_input; tick_input; tick_input]).
  set (W := match run_frames init_world inps with Some w => w | None => init_world end).
  assert (Hp : snake_pos W = mkPos 10 5) by (vm_compute; reflexivity).
  assert (Hs : scene W = mkScene 10 10) by (vm_compute; reflexivity).
  exists W; split; [|rewrite Hp, Hs; unfold in_scene; simpl; split; [reflexivity | lia]].
  apply (run_frames_reachable inps 0 init_world); [constructor| |vm_compute; reflexivity].
  intros inp Hin i; unfold inps in Hin.
  repeat (destruct Hin as [<-|Hin]; [unfold in_scene; simpl; lia|]); destruct Hin.
Qed.

(** C8 (amended): [move_snake] does no bounds check against the scene: a
    completed move always yields the old head moved by one tile, so past
    width/height the head leaves the grid; it fails (the u32 overflow
    check panics, as in the default debug build) exactly when the
    coordinate would go below 0 or above [u32::MAX]. *)
Theorem move_snake_no_bounds_check (m : SnakeMeta) (p : Pos) :
  0 <= x p <= U32_MAX -> 0 <= y p <= U32_MAX ->
  (move_snake m p = None <->
   (dir m = Down /\ y p = 0) \/ (dir m = Left /\ x p = 0) \/
   (dir m = Up /\ y p = U32_MAX) \/ (dir m = Right /\ x p = U32_MAX)) /\
  (forall m' p' cs, move_snake m p = Some (m', p', cs) -> p' = step_pos (dir m) p).
Proof.
  intros Hx Hy; split.
  - unfold move_snake, checked_add_u32, checked_sub_u32.
    destruct (dir m);
      [destruct (y p + 1 <=? U32_MAX) eqn:E | destruct (1 <=? y p) eqn:E
      | destruct (1 <=? x p) eqn:E | destruct (x p + 1 <=? U32_MAX) eqn:E];
      simpl; (apply Z.leb_le in E || apply Z.leb_gt in E); unfold U32_MAX in *; split; intros H;
      try congruence; try reflexivity.
    all: try (exfalso; destruct H as [[H1 H2]|[[H1 H2]|[[H1 H2]|[H1 H2]]]];
              solve [congruence | lia]).
    all: repeat (first [left; split; [reflexivity | lia] | right]).
    all: split; [reflexivity | lia].
  - intros m' p' cs H; exact (proj1 (move_snake_spec _ _ _ _ _ H)).
Qed.

Lemma move_snake_no_bounds_check_witness :
  0 <= 9 <= U32_MAX /\ 0 <= 5 <= U32_MAX /\
  (move_snake (mkSnakeMeta 4 Right Right) (mkPos 9 5) = None <->
   (Right = Down /\ 5 = 0) \/ (Right = Left /\ 9 = 0) \/
   (Right = Up /\ 5 = U32_MAX) \/ (Right = Right /\ 9 = U32_MAX)) /\
  (forall m' p' cs, move_snake (mkSnakeMeta 4 Right Right) (mkPos 9 5) = Some (m', p', cs) ->
   p' = step_pos Right (mkPos 9 5)).
Proof.
  assert (Hx : 0 <= x (mkPos 9 5) <= U32_MAX) by (unfold U32_MAX; simpl; lia).
  assert (Hy : 0 <= y (mkPos 9 5) <= U32_MAX) by (unfold U32_MAX; simpl; lia).
  split; [exact Hx|]; split; [exact Hy|].
  exact (move_snake_no_bounds_check (mkSnakeMeta 4 Right Right) (mkPos 9 5) Hx Hy).
Defined.

(** C10: [len] starts at 4 and never decreases: in every reachable state
    [len >= 4]; no frame lowers it; a fixed-timestep run raises it by at
    most one, and only when food lies on the new head tile; input handling
    and the move leave it unchanged. *)
Theorem len_non_decreasing (n : nat) (w : World) :
  reachable n w ->
  4 <= len (snake_meta w) /\
  (forall inp w' out, frame w inp = Some (w', out) ->
   len (snake_meta w) <= len (snake_meta w')) /\
  (forall w', fixed_update w = Some w' ->
   len (snake_meta w') = len (snake_meta w) \/
   (len (snake_meta w') = len (snake_meta w) + 1 /\
    exists f, In f (food w) /\ snd f = snake_pos w')) /\
  (forall c k, len (control_snake (snake_meta w) c k) = len (snake_meta w)) /\
  (forall m' p' cs, move_snake (snake_meta w) (snake_pos w) = Some (m', p', cs) ->
   len m' = len (snake_meta w)).
Proof.
  intros Hr; split; [exact (proj1 (proj2 (reachable_trail _ _ Hr)))|].
  split; [|split; [apply fixed_update_len|split; [apply control_snake_len|]]].
  - intros inp w' out H; apply frame_spec in H as [w1 [cs [Hf [_ [_ [_ ->]]]]]].
    apply fixed_updates_len in Hf; simpl in Hf; rewrite control_snake_len in Hf.
    pose proof (apply_commands_static cs (set_snake w1 (snake_pos w1) (snake_meta w1) false))
      as Hst; cbv zeta in Hst; injection Hst as _ _ _ _ Hm _.
    rewrite Hm; exact Hf.
  - intros m' p' cs H; apply move_snake_spec in H as [_ [-> _]]; reflexivity.
Qed.

Lemma len_non_decreasing_witness :
  reachable 0 init_world /\
  4 <= len (snake_meta init_world) /\
  (forall inp w' out, frame init_world inp = Some (w', out) ->
   len (snake_meta init_world) <= len (snake_meta w')) /\
  (forall w', fixed_update init_world = Some w' ->
   len (snake_meta w') = len (snake_meta init_world) \/
   (len (snake_meta w') = len (snake_meta init_world) + 1 /\
    exists f, In f (food init_world) /\ snd f = snake_pos w')) /\
  (forall c k, len (control_snake (snake_meta init_world) c k) = len (snake_meta init_world)) /\
  (forall m' p' cs, move_snake (snake_meta init_world) (snake_pos init_world) = Some (m', p', cs) ->
   len m' = len (snake_meta init_world)).
Proof. split; [constructor | exact (len_non_decreasing 0 init_world reach_init)]. Defined.

(** ** Further properties of the code *)

Lemma zrange_In_iff (v n : Z) : In v (zrange n) <-> 0 <= v < n.
Proof.
  split; [apply zrange_In|]; intros Hv; unfold zrange; apply in_map_iff.
  exists (Z.to_nat v); split; [lia|]; apply in_seq; lia.
Qed.

Lemma create_basic_scene_tile_pos :
  map tile_pos (fst create_basic_scene) =
  flat_map (fun i => map (fun j => mkPos i j) (zrange 10)) (zrange 10).
Proof. vm_compute; reflexivity. Qed.

(** [create_basic_scene] spawns one tile on each of the 100 positions of
    the 10 x 10 scene, with distinct ids; exactly the border tiles carry
    [Collision], and they are the walls of the running game; every tile
    gets the wall or floor texture, never the error texture. *)
Theorem create_basic_scene_layout :
  let (tiles, sc) := create_basic_scene in
  sc = mkScene 10 10 /\ length tiles = 100%nat /\
  (forall p, In p (map tile_pos tiles) <-> in_scene sc p) /\
  NoDup (map tile_pos tiles) /\ NoDup (map tile_id tiles) /\
  (forall t, In t tiles ->
     (tile_collision t = true <->
      x (tile_pos t) = 0 \/ y (tile_pos t) = 0 \/ x (tile_pos t) = 9 \/ y (tile_pos t) = 9) /\
     tile_texture t = if tile_collision t then "images/wall.png"%string
                      else "images/floor.png"%string) /\
  map (fun t => (tile_id t, tile_pos t)) (filter tile_collision tiles) = basic_walls.
Proof.
  unfold create_basic_scene at 1; cbv zeta.
  set (tiles := flat_map _ _).
  assert (Hpos : map tile_pos tiles =
                 flat_map (fun i => map (fun j => mkPos i j) (zrange 10)) (zrange 10))
    by exact create_basic_scene_tile_pos.
  split; [reflexivity|]; split; [vm_compute; reflexivity|].
  split; [|split; [rewrite Hpos; vm_compute; repeat constructor; simpl; intuition discriminate|]].
  { intros p; rewrite Hpos, in_flat_map; split.
    - intros [i [Hi Hj]]; apply in_map_iff in Hj as [j [<- Hj]].
      apply zrange_In in Hi, Hj; unfold in_scene; simpl; lia.
    - intros [Hx Hy]; simpl in Hx, Hy; exists (x p); split; [apply zrange_In_iff; exact Hx|].
      apply in_map_iff; exists (y p); split; [destruct p; reflexivity|apply zrange_In_iff; exact Hy]. }
  split; [vm_compute; repeat constructor; simpl; intuition discriminate|].
  split; [|vm_compute; reflexivity].
  assert (Hb : forallb (fun t =>
             Bool.eqb (tile_collision t)
               ((x (tile_pos t) =? 0) || (y (tile_pos t) =? 0) ||
                (x (tile_pos t) =? 9) || (y (tile_pos t) =? 9)) &&
             String.eqb (tile_texture t)
               (if tile_collision t then "images/wall.png"%string
                else "images/floor.png"%string)) tiles = true)
    by (vm_compute; reflexivity).
  intros t Ht; rewrite forallb_forall in Hb; specialize (Hb t Ht).
  apply andb_true_iff in Hb as [Hc Htex]; apply String.eqb_eq in Htex; split; [|exact Htex].
  apply Bool.eqb_prop in Hc; rewrite Hc.
  rewrite !orb_true_iff, !Z.eqb_eq; tauto.
Qed.

(** *** Frames preserve what control, the fixed update and the spawn keep *)

Lemma frame_preserves (P : World -> Prop) (w : World) (inp : FrameInput) (w' : World)
  (out : option (list Entity)) :
  (forall w c k, P w ->
     P (set_snake w (snake_pos w) (control_snake (snake_meta w) c k) (snake_changed w))) ->
  (forall w w', P w -> fixed_update w = Some w' -> P w') ->
  (forall w1 cs, P w1 ->
     respawn_food (scene w1) (food w1) (map snd (collidables w1)) (rng inp) = Some cs ->
     P (apply_commands (set_snake w1 (snake_pos w1) (snake_meta w1) false) cs)) ->
  P w -> frame w inp = Some (w', out) -> P w'.
Proof.
  intros Hc Hu Hs Hw H; apply frame_spec in H as [w1 [cs [Hf [Hr [_ [_ ->]]]]]].
  apply Hs; [|exact Hr].
  specialize (Hc w (keys_changed inp) (key_released inp) Hw).
  revert Hf Hc; generalize (set_snake w (snake_pos w)
    (control_snake (snake_meta w) (keys_changed inp) (key_released inp)) (snake_changed w)).
  generalize (fixed_runs inp); intros k; induction k as [|k IH]; simpl; intros w0 Hf H0.
  - injection Hf as <-; exact H0.
  - destruct (fixed_update w0) as [w2|] eqn:E; [|discriminate].
    exact (IH _ Hf (Hu _ _ H0 E)).
Qed.

Lemma reachable_preserved (P : World -> Prop) :
  P init_world ->
  (forall n w inp w' out, reachable n w -> P w -> (forall i, in_scene (scene w) (rng inp i)) ->
     frame w inp = Some (w', out) -> P w') ->
  forall n w, reachable n w -> P w.
Proof.
  intros H0 Hstep n w Hr; induction Hr as [|n w inp w' out Hr IH Hrng Hf]; [exact H0|].
  exact (Hstep _ _ _ _ _ Hr IH Hrng Hf).
Qed.

Lemma filter_length_le {A} (f : A -> bool) (l : list A) : (length (filter f l) <= length l)%nat.
Proof. induction l as [|a l IH]; simpl; [lia|]; destruct (f a); simpl; lia. Qed.

Lemma length_le1_eq {A} (l : list A) (a b : A) :
  (length l <= 1)%nat -> In a l -> In b l -> a = b.
Proof.
  destruct l as [|c [|d l]]; simpl; intros Hl Ha Hb; [contradiction| |lia].
  destruct Ha as [<-|[]]; destruct Hb as [<-|[]]; reflexivity.
Qed.

Lemma respawn_food_spawn (sc : Scene) (foods : list (Entity * Pos)) (occ : list Pos)
  (rng : nat -> Pos) (p : Pos) :
  (forall i, in_scene sc (rng i)) ->
  respawn_food sc foods occ rng = Some [SpawnFood p] ->
  foods = [] /\ in_scene sc p /\ ~ In p occ.
Proof.
  intros Hrng; unfold respawn_food; destruct foods as [|f fs]; [|discriminate].
  destruct checked_mul_u32; [|discriminate].
  destruct (_ =? _); [discriminate|].
  destruct (negb _); [discriminate|]; simpl length.
  destruct (try_random 1 0 rng (nodup Pos_eq_dec occ)) as [q|] eqn:Er.
  - intros H; injection H as <-; apply try_random_some in Er as [[j ->] Hn].
    rewrite nodup_In in Hn; auto.
  - destruct (scan sc (nodup Pos_eq_dec occ)) as [q|] eqn:Es; [|discriminate].
    intros H; injection H as <-; apply scan_some in Es as [Hp Hn].
    rewrite nodup_In in Hn; auto.
Qed.

(** Where the fixed update puts the tiles of the new body. *)
Lemma fixed_update_body_pos (w w' : World) (s : Seg) :
  fixed_update w = Some w' -> In s (body w') ->
  (exists t, In t (body w) /\ s = mkSeg (seg_id t) (seg_pos t) (seg_age t + 1)) \/
  s = mkSeg (next_entity w) (snake_pos w) 0.
Proof.
  intros H Hs; apply fixed_update_spec in H; cbv zeta in H.
  destruct H as [m2 [es2 [_ ->]]]; simpl in Hs.
  apply filter_In in Hs as [Hs _]; apply in_app_or in Hs as [Hs|[<-|[]]]; [left|right; reflexivity].
  apply in_map_iff in Hs as [t [<- Ht]]; exists t; auto.
Qed.

Lemma fixed_update_food_ok (w w' : World) : food_ok w -> fixed_update w = Some w' -> food_ok w'.
Proof.
  intros [Hlen Hf] H.
  assert (Hb : forall s, In s (body w') ->
             (exists t, In t (body w) /\ s = mkSeg (seg_id t) (seg_pos t) (seg_age t + 1)) \/
             s = mkSeg (next_entity w) (snake_pos w) 0)
    by (intros s; apply fixed_update_body_pos, H).
  apply fixed_update_spec in H; cbv zeta in H; destruct H as [m2 [es2 [Hcase Hw']]].
  assert (Hfood : forall f, In f (food w') ->
            In f (food w) /\ existsb (Nat.eqb (fst f)) es2 = false).
  { intros f Hin; rewrite Hw' in Hin; simpl in Hin; apply filter_In in Hin as [Hin Hk].
    split; [exact Hin|]; rewrite existsb_app in Hk.
    apply negb_true_iff, orb_false_iff in Hk as [Hk _]; exact Hk. }
  assert (Hsc : scene w' = scene w) by (rewrite Hw'; reflexivity).
  assert (Hcol : forall q, In q (map snd (collidables w')) ->
            In q (map snd (collidables w)) \/ q = step_pos (dir (snake_meta w)) (snake_pos w)).
  { intros q Hq; unfold collidables in Hq |- *; rewrite map_app in Hq |- *.
    apply in_app_or in Hq as [Hq|[Hq|Hq]].
    - left; apply in_or_app; left; rewrite Hw' in Hq; exact Hq.
    - right; rewrite Hw' in Hq; symmetry; exact Hq.
    - rewrite map_map in Hq; apply in_map_iff in Hq as [s [<- Hs]]; simpl.
      left; apply in_or_app; right; simpl.
      destruct (Hb s Hs) as [[t [Ht ->]]| ->]; simpl; [right|left; reflexivity].
      rewrite map_map; apply in_map_iff; exists t; auto. }
  split.
  - rewrite Hw'; simpl; eapply Nat.le_trans; [apply filter_length_le|exact Hlen].
  - intros f Hin; destruct (Hfood f Hin) as [Hin0 Hnot].
    destruct (Hf f Hin0) as [Hs Hn]; rewrite Hsc; split; [exact Hs|].
    intros Hq; apply Hcol in Hq as [Hq|Hq]; [exact (Hn Hq)|].
    destruct Hcase as [[_ [_ Hno]] | [et [Het [-> _]]]].
    + exact (Hno f Hin0 Hq).
    + rewrite <- Hq in Het; rewrite (length_le1_eq _ _ _ Hlen Hin0 Het) in Hnot.
      simpl in Hnot; rewrite Nat.eqb_refl in Hnot; discriminate.
Qed.

Lemma food_ok_frame (w : World) (inp : FrameInput) (w' : World) (out : option (list Entity)) :
  (forall i, in_scene (scene w) (rng inp i)) ->
  food_ok w -> frame w inp = Some (w', out) -> food_ok w'.
Proof.
  intros Hrng Hw Hf.
  pose proof (frame_scene _ _ _ _ Hf) as Hsc.
  apply frame_spec in Hf as [w1 [cs [Hf [Hr [_ [_ ->]]]]]].
  assert (Hok : food_ok w1).
  { revert Hf; generalize (fixed_runs inp) as k.
    assert (H0 : food_ok (set_snake w (snake_pos w)
                  (control_snake (snake_meta w) (keys_changed inp) (key_released inp))
                  (snake_changed w))) by exact Hw.
    revert H0; generalize (set_snake w (snake_pos w)
      (control_snake (snake_meta w) (keys_changed inp) (key_released inp)) (snake_changed w)).
    intros w0 H0 k; revert w0 H0; induction k as [|k IH]; simpl; intros w0 H0 Hf.
    - injection Hf as <-; exact H0.
    - destruct (fixed_update w0) as [w2|] eqn:E; [|discriminate].
      exact (IH _ (fixed_update_food_ok _ _ H0 E) Hf). }
  destruct (respawn_food_cmds _ _ _ _ _ Hr) as [-> | [p ->]]; [exact Hok|].
  assert (Hsc1 : scene w1 = scene w).
  { destruct (fixed_updates_fields _ _ _ Hf) as [Hs _]; exact Hs. }
  apply respawn_food_spawn in Hr as [Hnil [Hin Hocc]];
    [|rewrite Hsc1; exact Hrng].
  unfold food_ok; simpl; rewrite Hnil; simpl; split; [lia|].
  intros f [<-|[]]; simpl; split; [exact Hin|exact Hocc].
Qed.

(** In every reachable state there is at most one food entity; it lies
    inside the scene and never on a wall, the head or a body segment. *)
Theorem food_never_under_snake (n : nat) (w : World) :
  reachable n w ->
  (length (food w) <= 1)%nat /\
  forall f, In f (food w) ->
    in_scene (scene w) (snd f) /\ ~ In (snd f) (map snd (walls w)) /\
    snd f <> snake_pos w /\ ~ In (snd f) (map seg_pos (body w)).
Proof.
  intros Hr.
  assert (Hok : food_ok w).
  { revert n w Hr; apply reachable_preserved; [split; [simpl; lia|intros f []]|].
    intros n w inp w' out _ Hw Hrng Hf; exact (food_ok_frame _ _ _ _ Hrng Hw Hf). }
  destruct Hok as [Hlen Hf]; split; [exact Hlen|].
  intros f Hin; destruct (Hf f Hin) as [Hs Hn]; split; [exact Hs|].
  unfold collidables in Hn; rewrite map_app in Hn; simpl in Hn; rewrite map_map in Hn.
  repeat split; intros Hc; apply Hn.
  - apply in_or_app; left; exact Hc.
  - apply in_or_app; right; left; symmetry; exact Hc.
  - apply in_or_app; right; right; exact Hc.
Qed.

Lemma opposite_neq (d : Direction) : d <> opposite d.
Proof. destruct d; discriminate. Qed.

Lemma step_pos_back (d e : Direction) (p : Pos) :
  step_pos d (step_pos e p) = p -> d = opposite e.
Proof.
  destruct p as [px py]; destruct d, e; simpl; intros H; injection H; intros; try reflexivity; lia.
Qed.

Lemma control_snake_inv (w : World) (c : bool) (k : option KeyCode.t) :
  snake_inv w ->
  snake_inv (set_snake w (snake_pos w) (control_snake (snake_meta w) c k) (snake_changed w)).
Proof.
  intros [Hwf [Hrev [Hneck Hchain]]].
  assert (Hp : prev_dir (control_snake (snake_meta w) c k) = prev_dir (snake_meta w) /\
               dir (control_snake (snake_meta w) c k) <>
               opposite (prev_dir (snake_meta w))).
  { unfold control_snake; destruct c; [|auto].
    destruct (direction_eqb _ _) eqn:E; simpl; [auto|].
    split; [reflexivity|]; intros Heq; apply direction_eqb_eq in Heq; congruence. }
  destruct Hp as [Hp Hd]; unfold snake_inv, neck_ok, chain_ok, set_snake; simpl.
  rewrite Hp; repeat split; auto; apply Hwf.
Qed.

Lemma fixed_update_snake_inv (w w' : World) :
  snake_inv w -> fixed_update w = Some w' -> snake_inv w'.
Proof.
  intros [Hwf [Hrev [Hneck Hchain]]] H.
  pose proof (fun s => fixed_update_body_pos w w' s H) as Hb.
  destruct (fixed_update_wf_body _ _ Hwf H) as [Hwf' _].
  destruct Hwf as [_ [_ Hage]]; rewrite Forall_forall in Hage.
  apply fixed_update_spec in H; cbv zeta in H; destruct H as [m2 [es2 [Hcase Hw']]].
  assert (Hm2 : dir m2 = dir (snake_meta w) /\ prev_dir m2 = dir (snake_meta w))
    by (destruct Hcase as [[-> _] | [et [_ [_ [_ [Hd Hp]]]]]]; auto).
  destruct Hm2 as [Hd Hp].
  assert (Hsm : snake_meta w' = m2 /\ snake_pos w' = step_pos (dir (snake_meta w)) (snake_pos w))
    by (rewrite Hw'; auto).
  destruct Hsm as [Hsm Hsp].
  split; [exact Hwf'|]; rewrite Hsm; split; [rewrite Hd, Hp; apply opposite_neq|].
  split; [unfold neck_ok|unfold chain_ok].
  - intros s Hs H0; rewrite Hsm, Hp, Hsp.
    destruct (Hb s Hs) as [[t [Ht ->]] | ->]; simpl in *; [|reflexivity].
    specialize (Hage t Ht); lia.
  - intros s s' Hs Hs' Ha.
    destruct (Hb s Hs) as [[t [Ht ->]] | ->]; destruct (Hb s' Hs') as [[t' [Ht' ->]] | ->];
      simpl in *.
    + apply (Hchain t t' Ht Ht'); lia.
    + specialize (Hage t Ht); lia.
    + exists (prev_dir (snake_meta w)); apply Hneck; [exact Ht'|lia].
    + lia.
Qed.

Lemma respawn_snake_inv (w1 : World) (cs : list Command) :
  (cs = [] \/ exists p, cs = [SpawnFood p]) ->
  snake_inv w1 -> snake_inv (apply_commands (set_snake w1 (snake_pos w1) (snake_meta w1) false) cs).
Proof.
  intros [-> | [p ->]] [Hwf Hrest]; simpl; unfold snake_inv, neck_ok, chain_ok in *; simpl.
  - split; [exact Hwf|exact Hrest].
  - split; [apply (spawn_food_wf (set_snake w1 (snake_pos w1) (snake_meta w1) false)); exact Hwf|].
    exact Hrest.
Qed.

Lemma reachable_snake_inv (n : nat) (w : World) : reachable n w -> snake_inv w.
Proof.
  apply reachable_preserved.
  - split; [split; [constructor | split; constructor]|].
    split; [discriminate|]; split; [intros s []|intros s s' []].
  - intros n0 w0 inp w' out _ Hw _ Hf.
    apply (frame_preserves snake_inv w0 inp w' out); auto.
    + intros w1 c k; apply control_snake_inv.
    + apply fixed_update_snake_inv.
    + intros w1 cs H1 Hr; exact (respawn_snake_inv _ _ (respawn_food_cmds _ _ _ _ _ Hr) H1).
Qed.

(** In every reachable state the snake is never set to reverse
    ([dir <> opposite prev_dir]), and its body is a connected trail: the
    newest segment (age 0) is one step behind the head along [prev_dir],
    and segments of consecutive ages lie on adjacent tiles. *)
Theorem snake_body_connected (n : nat) (w : World) :
  reachable n w ->
  dir (snake_meta w) <> opposite (prev_dir (snake_meta w)) /\
  (forall s, In s (body w) -> seg_age s = 0 ->
     step_pos (prev_dir (snake_meta w)) (seg_pos s) = snake_pos w) /\
  (forall s s', In s (body w) -> In s' (body w) -> seg_age s' = seg_age s + 1 ->
     exists d, step_pos d (seg_pos s') = seg_pos s).
Proof.
  intros Hr; destruct (reachable_snake_inv _ _ Hr) as [_ [Hd [Hn Hc]]]; auto.
Qed.

(** From a reachable state, whatever key is handled first, the next move
    never puts the head on the tile of the newest body segment (the
    "neck"): the 180-degree turn is impossible. *)
Theorem move_never_onto_neck (n : nat) (w : World) (c : bool) (k : option KeyCode.t)
  (w' : World) :
  reachable n w ->
  fixed_update (set_snake w (snake_pos w) (control_snake (snake_meta w) c k) (snake_changed w))
    = Some w' ->
  forall s, In s (body w) -> seg_age s = 0 -> snake_pos w' <> seg_pos s.
Proof.
  intros Hr Hf s Hs H0 Heq.
  pose proof (control_snake_inv w c k (reachable_snake_inv _ _ Hr)) as [_ [Hd [Hn _]]].
  simpl in Hd, Hn; unfold neck_ok in Hn; simpl in Hn.
  specialize (Hn s Hs H0).
  apply fixed_update_spec in Hf; cbv zeta in Hf; destruct Hf as [m2 [es2 [_ Hw']]].
  rewrite Hw' in Heq; simpl in Heq; rewrite <- Hn in Heq.
  apply step_pos_back in Heq; exact (Hd Heq).
Qed.

(** *** Where [respawn_food] puts the food *)

Lemma find_app {A} (f : A -> bool) (l1 l2 : list A) :
  find f (l1 ++ l2) = match find f l1 with Some a => Some a | None => find f l2 end.
Proof. induction l1 as [|a l1 IH]; simpl; [reflexivity|]; destruct (f a); auto. Qed.

Lemma find_seq_least {A} (g : Z -> A) (f : A -> bool) (b j : nat) (p : A) :
  find f (map g (map Z.of_nat (seq b j))) = Some p ->
  exists v, p = g v /\ Z.of_nat b <= v < Z.of_nat b + Z.of_nat j /\
    forall u, Z.of_nat b <= u < v -> f (g u) = false.
Proof.
  revert b; induction j as [|j IH]; simpl; intros b H; [discriminate|].
  destruct (f (g (Z.of_nat b))) eqn:E.
  - injection H as <-; exists (Z.of_nat b); repeat split; try lia.
  - destruct (IH (S b) H) as [v [-> [Hv Hu]]]; exists v; repeat split; try lia.
    intros u Hu'; destruct (Z.eq_dec u (Z.of_nat b)) as [->|Hne]; [exact E|].
    apply Hu; lia.
Qed.

Lemma find_flat_seq_least {A} (h : Z -> list A) (f : A -> bool) (a k : nat) (p : A) :
  find f (flat_map h (map Z.of_nat (seq a k))) = Some p ->
  exists v, find f (h v) = Some p /\ Z.of_nat a <= v < Z.of_nat a + Z.of_nat k /\
    forall u, Z.of_nat a <= u < v -> find f (h u) = None.
Proof.
  revert a; induction k as [|k IH]; simpl; intros a H; [discriminate|].
  rewrite find_app in H; destruct (find f (h (Z.of_nat a))) as [q|] eqn:E.
  - injection H as <-; exists (Z.of_nat a); repeat split; try lia; auto.
  - destruct (IH (S a) H) as [v [Hv [Hr Hu]]]; exists v; repeat split; auto; try lia.
    intros u Hu'; destruct (Z.eq_dec u (Z.of_nat a)) as [->|Hne]; [exact E|].
    apply Hu; lia.
Qed.

(** The fallback scan finds the free tile with the least [x], and among
    those the least [y]. *)
Lemma scan_least (sc : Scene) (occ : list Pos) (p q : Pos) :
  scan sc occ = Some p -> in_scene sc q -> ~ In q occ ->
  x p < x q \/ (x p = x q /\ y p <= y q).
Proof.
  unfold scan, zrange; intros H [Hqx Hqy] Hq.
  assert (Hfq : negb (pos_mem q occ) = true)
    by (destruct (pos_mem q occ) eqn:E; [apply pos_mem_In in E; contradiction|reflexivity]).
  apply find_flat_seq_least in H as [v [Hv [Hr Hu]]]; simpl in Hr.
  unfold zrange in Hv; apply find_seq_least in Hv as [yv [-> [Hy Hyu]]]; simpl in *.
  destruct (Z_lt_le_dec (x q) v) as [Hlt|Hge].
  - exfalso; specialize (Hu (x q) ltac:(lia)).
    apply find_none with (x := q) in Hu; [rewrite Hu in Hfq; discriminate|].
    unfold zrange; rewrite in_map_iff; exists (y q); split; [destruct q; reflexivity|].
    apply zrange_In_iff; lia.
  - destruct (Z.eq_dec (x q) v) as [<-|Hne]; [right|left; lia].
    split; [reflexivity|]; destruct (Z_lt_le_dec (y q) yv) as [Hlt|]; [|lia].
    specialize (Hyu (y q) ltac:(lia)); destruct q; simpl in *; congruence.
Qed.

(** [respawn_food] with no food present: it panics exactly when
    [x_size * y_size] overflows [u32], or when the scene has a zero size
    ([gen_range] on an empty range) while the count of distinct occupied
    positions is not [x_size * y_size]. Otherwise, unless the count of
    distinct occupied positions equals [x_size * y_size] (then nothing is
    spawned), the food goes on the first random draw if that tile is free;
    if the draw is occupied, the food goes on the free tile of the scene
    with the least [x], then the least [y], and nothing is spawned only
    when every tile of the scene is occupied. *)
Theorem respawn_food_placement (sc : Scene) (occupied : list Pos) (rng : nat -> Pos) :
  (respawn_food sc [] occupied rng = None <->
   U32_MAX < x_size sc * y_size sc \/
   (Z.of_nat (length (nodup Pos_eq_dec occupied)) <> x_size sc * y_size sc /\
    (x_size sc <= 0 \/ y_size sc <= 0))) /\
  forall cs, respawn_food sc [] occupied rng = Some cs ->
  (Z.of_nat (length (nodup Pos_eq_dec occupied)) = x_size sc * y_size sc -> cs = []) /\
  (Z.of_nat (length (nodup Pos_eq_dec occupied)) <> x_size sc * y_size sc ->
   (~ In (rng 0%nat) occupied -> cs = [SpawnFood (rng 0%nat)]) /\
   (In (rng 0%nat) occupied ->
    ((cs = [] <-> forall q, in_scene sc q -> In q occupied) /\
     forall p, cs = [SpawnFood p] ->
       in_scene sc p /\ ~ In p occupied /\
       forall q, in_scene sc q -> ~ In q occupied -> x p < x q \/ (x p = x q /\ y p <= y q)))).
Proof.
  unfold respawn_food; split.
  { unfold checked_mul_u32; destruct (x_size sc * y_size sc <=? U32_MAX) eqn:E.
    - apply Z.leb_le in E.
      destruct (Z.of_nat (length (nodup Pos_eq_dec occupied)) =? x_size sc * y_size sc) eqn:Ec.
      + apply Z.eqb_eq in Ec; split; [discriminate|].
        intros [Hb|[Hb _]]; [lia|contradiction].
      + apply Z.eqb_neq in Ec; unfold gen_range_ok.
        destruct (0 <? x_size sc) eqn:Ex; destruct (0 <? y_size sc) eqn:Ey;
          (apply Z.ltb_lt in Ex || apply Z.ltb_ge in Ex);
          (apply Z.ltb_lt in Ey || apply Z.ltb_ge in Ey); simpl.
        * split; [destruct pos_mem; [destruct scan|]; discriminate|].
          intros [Hb|[_ Hb]]; lia.
        * split; [intros _; right; split; [exact Ec|lia]|reflexivity].
        * split; [intros _; right; split; [exact Ec|lia]|reflexivity].
        * split; [intros _; right; split; [exact Ec|lia]|reflexivity].
    - apply Z.leb_gt in E; split; [intros _; left; exact E|reflexivity]. }
  intros cs H; destruct (checked_mul_u32 (x_size sc) (y_size sc)) as [total|] eqn:Em;
    [|discriminate].
  unfold checked_mul_u32 in Em; destruct (_ <=? U32_MAX); [|discriminate].
  injection Em as <-.
  destruct (Z.of_nat (length (nodup Pos_eq_dec occupied)) =? x_size sc * y_size sc) eqn:Ec.
  { apply Z.eqb_eq in Ec; injection H as <-; split; [reflexivity|contradiction]. }
  apply Z.eqb_neq in Ec; split; [contradiction|intros _].
  destruct (negb (gen_range_ok (x_size sc) && gen_range_ok (y_size sc))); [discriminate|].
  simpl in H; split.
  - intros Hn; destruct (pos_mem (rng 0%nat) (nodup Pos_eq_dec occupied)) eqn:E.
    + apply pos_mem_In, nodup_In in E; contradiction.
    + injection H as <-; reflexivity.
  - intros Hin; assert (E : pos_mem (rng 0%nat) (nodup Pos_eq_dec occupied) = true)
      by (apply pos_mem_In, nodup_In, Hin).
    rewrite E in H.
    destruct (scan sc (nodup Pos_eq_dec occupied)) as [p|] eqn:Es; injection H as <-.
    + pose proof (scan_some _ _ _ Es) as [Hp Hn]; rewrite nodup_In in Hn.
      split; [split; [discriminate|]|].
      * intros Hfull; exact (False_ind _ (Hn (Hfull p Hp))).
      * intros p' Hp'; injection Hp' as <-; split; [exact Hp|]; split; [exact Hn|].
        intros q Hq Hnq; apply (scan_least sc (nodup Pos_eq_dec occupied)); auto.
        rewrite nodup_In; exact Hnq.
    + split; [split; [|reflexivity]|intros p' Hp'; discriminate].
      intros _ q Hq; destruct (in_dec Pos_eq_dec q occupied) as [Hi|Hni]; [exact Hi|].
      exfalso; destruct (scan sc (nodup Pos_eq_dec occupied)) as [r|] eqn:Er.
      * discriminate.
      * unfold scan in Er; apply find_none with (x := q) in Er.
        -- destruct (pos_mem q (nodup Pos_eq_dec occupied)) eqn:Eq; [|discriminate].
           apply pos_mem_In, nodup_In in Eq; contradiction.
        -- destruct Hq as [Hqx Hqy]; apply in_flat_map; exists (x q).
           split; [apply zrange_In_iff; exact Hqx|].
           apply in_map_iff; exists (y q); split; [destruct q; reflexivity|].
           apply zrange_In_iff; exact Hqy.
Qed.

(** *** What one frame does to the snake *)

Lemma fixed_updates_straight (k : nat) (w w' : World) :
  fixed_updates k w = Some w' ->
  snake_pos w' = Nat.iter k (step_pos (dir (snake_meta w))) (snake_pos w) /\
  dir (snake_meta w') = dir (snake_meta w) /\ len (snake_meta w) <= len (snake_meta w') /\
  (k = 0%nat -> w' = w) /\
  (k <> 0%nat -> prev_dir (snake_meta w') = dir (snake_meta w)).
Proof.
  revert w; induction k as [|k IH]; simpl; intros w H.
  - injection H as <-; repeat split; auto; [lia|intros []; reflexivity].
  - destruct (fixed_update w) as [w2|] eqn:E; [|discriminate].
    pose proof (fixed_updates_len _ _ _ H) as Hl2.
    pose proof (fixed_update_len _ _ E) as Hl1.
    apply fixed_update_spec in E; cbv zeta in E; destruct E as [m2 [es2 [Hcase Hw2]]].
    assert (Hd : dir m2 = dir (snake_meta w) /\ prev_dir m2 = dir (snake_meta w))
      by (destruct Hcase as [[-> _] | [et [_ [_ [_ [Hd Hp]]]]]]; auto).
    destruct (IH _ H) as [Hp [Hdir [_ [H0 H1]]]].
    rewrite Hw2 in Hp, Hdir, H0, H1, Hl2; simpl in Hp, Hdir, H0, H1, Hl2.
    rewrite Hw2 in Hl1; simpl in Hl1.
    split; [rewrite Hp, (proj1 Hd), Nat.iter_swap; reflexivity|].
    split; [rewrite Hdir; exact (proj1 Hd)|].
    split; [destruct Hl1 as [E|[E _]]; lia|].
    split; [discriminate|].
    intros _; destruct k as [|k]; [rewrite (H0 eq_refl); exact (proj2 Hd)|].
    rewrite H1; [exact (proj1 Hd)|discriminate].
Qed.

(** All moves of one frame go the same way: a frame with [k] runs of the
    fixed-timestep set moves the head [k] tiles along the direction that
    [control_snake] chose at the start of the frame, and after a move
    [prev_dir] is that direction. *)
Theorem frame_moves_straight (w : World) (inp : FrameInput) (w' : World)
  (out : option (list Entity)) :
  frame w inp = Some (w', out) ->
  let d := dir (control_snake (snake_meta w) (keys_changed inp) (key_released inp)) in
  snake_pos w' = Nat.iter (fixed_runs inp) (step_pos d) (snake_pos w) /\
  dir (snake_meta w') = d /\
  (fixed_runs inp <> 0%nat -> prev_dir (snake_meta w') = d).
Proof.
  intros H d; apply frame_spec in H as [w1 [cs [Hf [_ [_ [_ ->]]]]]].
  apply fixed_updates_straight in Hf as [Hp [Hd [_ [_ H1]]]]; simpl in Hp, Hd, H1.
  pose proof (apply_commands_static cs (set_snake w1 (snake_pos w1) (snake_meta w1) false))
    as Hst; cbv zeta in Hst; injection Hst as _ _ _ Hpos Hm _.
  rewrite Hpos, Hm; simpl; auto.
Qed.

(** *** [update_position] *)

(** [update_position] panics, through the [u32] overflow of
    [pos * TILE_SIZE], exactly when some changed position has a coordinate
    above [134217727] ([u32::MAX / 32]); otherwise it sets one
    translation per changed entity, each computed from the tile position
    alone, whatever the [f32] arithmetic. *)
Theorem update_position_overflow {f32 : Type} (u32_as_f32 : Z -> f32)
  (f32_sub f32_mul f32_div : f32 -> f32 -> f32) (f32_one f32_two : f32)
  (sc : Scene) (changed : list Pos) :
  Forall (fun p => 0 <= x p /\ 0 <= y p) changed ->
  (update_position u32_as_f32 f32_sub f32_mul f32_div f32_one f32_two sc changed = None <->
   exists p, In p changed /\ (134217727 < x p \/ 134217727 < y p)) /\
  (forall ts,
   update_position u32_as_f32 f32_sub f32_mul f32_div f32_one f32_two sc changed = Some ts ->
   length ts = length changed).
Proof.
  unfold update_position; cbv zeta.
  generalize (f32_div (f32_mul (f32_sub (u32_as_f32 (x_size sc)) f32_one)
                (u32_as_f32 TILE_SIZE)) f32_two) as ox.
  generalize (f32_div (f32_mul (f32_sub (u32_as_f32 (y_size sc)) f32_one)
                (u32_as_f32 TILE_SIZE)) f32_two) as oy.
  intros oy ox Hnn; split.
  - induction changed as [|p rest IH]; simpl.
    + split; [discriminate|intros [q [[] _]]].
    + inversion Hnn as [|? ? [Hx Hy] Hrest]; subst.
      unfold checked_mul_u32, TILE_SIZE at 1 3.
      destruct (x p * 32 <=? U32_MAX) eqn:Ex; [apply Z.leb_le in Ex|apply Z.leb_gt in Ex].
      * destruct (y p * 32 <=? U32_MAX) eqn:Ey; [apply Z.leb_le in Ey|apply Z.leb_gt in Ey].
        -- destruct (translations u32_as_f32 f32_sub ox oy rest) eqn:Er.
           ++ split; [discriminate|]; intros [q [[<-|Hq] Hc]]; [unfold U32_MAX in *; lia|].
              assert (Hn : Some l = None) by (apply (IH Hrest); exists q; auto); discriminate.
           ++ split; [intros _|reflexivity].
              destruct (proj1 (IH Hrest) eq_refl) as [q [Hq Hc]]; exists q; auto.
        -- split; [intros _; exists p; split; [left; reflexivity|right; unfold U32_MAX in *; lia]
                  |reflexivity].
      * split; [intros _; exists p; split; [left; reflexivity|left; unfold U32_MAX in *; lia]
                |reflexivity].
  - revert Hnn; induction changed as [|p rest IH]; simpl.
    + intros _ ts H; injection H as <-; reflexivity.
    + intros Hnn ts H; inversion Hnn as [|? ? _ Hrest]; subst.
      destruct (checked_mul_u32 (x p) TILE_SIZE); [|discriminate].
      destruct (checked_mul_u32 (y p) TILE_SIZE); [|discriminate].
      destruct (translations u32_as_f32 f32_sub ox oy rest) as [ts'|] eqn:Er; [|discriminate].
      injection H as <-; simpl; f_equal; exact (IH Hrest ts' eq_refl).
Qed.

(** *** The full-scene check of [respawn_food] *)

Lemma NoDup_map_injective {A B} (f : A -> B) (l : list A) :
  (forall u v, f u = f v -> u = v) -> NoDup l -> NoDup (map f l).
Proof.
  intros Hf Hl; induction Hl as [|a l Ha Hl IH]; simpl; constructor; [|exact IH].
  intros Hin; apply in_map_iff in Hin as [b [Hb Hin]]; apply Hf in Hb; subst; contradiction.
Qed.

Lemma grid_NoDup (xs ys : list Z) :
  NoDup xs -> NoDup ys -> NoDup (flat_map (fun i => map (fun j => mkPos i j) ys) xs).
Proof.
  intros Hx Hy; induction Hx as [|a xs Ha Hx IH]; simpl; [constructor|].
  apply NoDup_app; [|exact IH|].
  - apply NoDup_map_injective; [|exact Hy].
    intros u v H; injection H; auto.
  - intros p Hp Hq; apply in_map_iff in Hp as [j [<- _]].
    apply in_flat_map in Hq as [i [Hi Hq]]; apply in_map_iff in Hq as [j' [Hq _]].
    injection Hq as -> _; contradiction.
Qed.

Lemma grid_length (xs ys : list Z) :
  length (flat_map (fun i => map (fun j => mkPos i j) ys) xs) = (length xs * length ys)%nat.
Proof. induction xs as [|a xs IH]; simpl; [reflexivity|]; rewrite length_app, length_map, IH; reflexivity. Qed.

Lemma zrange_length (n : Z) : length (zrange n) = Z.to_nat n.
Proof. unfold zrange; rewrite length_map, length_seq; reflexivity. Qed.

Lemma zrange_NoDup (n : Z) : NoDup (zrange n).
Proof.
  unfold zrange; apply NoDup_map_injective; [intros u v; lia|apply seq_NoDup].
Qed.

(** The early return of [respawn_food] compares the number of distinct
    occupied positions with [x_size * y_size], also counting positions
    outside the scene: when some occupied position lies outside the scene
    and that count equals [x_size * y_size], no food is spawned although a
    tile of the scene is free. *)
Theorem respawn_food_full_check_counts_outside (sc : Scene) (occupied : list Pos)
  (rng : nat -> Pos) :
  0 <= x_size sc -> 0 <= y_size sc -> x_size sc * y_size sc <= U32_MAX ->
  (exists q, In q occupied /\ ~ in_scene sc q) ->
  Z.of_nat (length (nodup Pos_eq_dec occupied)) = x_size sc * y_size sc ->
  respawn_food sc [] occupied rng = Some [] /\ exists p, in_scene sc p /\ ~ In p occupied.
Proof.
  intros Hx Hy Hm [q [Hq Hout]] Hc; split.
  { unfold respawn_food, checked_mul_u32.
    rewrite (proj2 (Z.leb_le _ _) Hm), Hc, Z.eqb_refl; reflexivity. }
  set (L := flat_map (fun i => map (fun j => mkPos i j) (zrange (y_size sc))) (zrange (x_size sc))).
  destruct (scan sc occupied) as [p|] eqn:Es.
  { apply scan_some in Es; exists p; exact Es. }
  exfalso.
  assert (Hall : forall p, In p L -> In p (remove Pos_eq_dec q (nodup Pos_eq_dec occupied))).
  { intros p Hp; apply in_in_remove.
    - intros ->; apply Hout; unfold L in Hp; apply in_flat_map in Hp as [i [Hi Hp]].
      apply in_map_iff in Hp as [j [<- Hj]]; apply zrange_In in Hi, Hj; split; simpl; lia.
    - unfold scan in Es; apply find_none with (x := p) in Es; [|exact Hp].
      apply nodup_In; destruct (pos_mem p occupied) eqn:E; [apply pos_mem_In, E|discriminate]. }
  apply NoDup_incl_length in Hall; [|apply grid_NoDup; apply zrange_NoDup].
  pose proof (remove_length_lt Pos_eq_dec (nodup Pos_eq_dec occupied) q
                (proj2 (nodup_In _ _ _) Hq)) as Hlt.
  unfold L in Hall; rewrite grid_length, !zrange_length in Hall.
  assert (Hxy : Z.of_nat (Z.to_nat (x_size sc) * Z.to_nat (y_size sc)) = x_size sc * y_size sc)
    by (rewrite Nat2Z.inj_mul, !Z2Nat.id; lia).
  lia.
Qed.

(** *** Ages of the body *)

(** In every reachable state the body segments, in spawn order, carry the
    ages [m - 1, ..., 1, 0] for [m] segments: one segment per age, the
    oldest first, so [despawn_old] always removes the oldest one. *)
Theorem body_ages_consecutive (n : nat) (w : World) :
  reachable n w ->
  map seg_age (body w) = desc (length (body w)) /\
  forall s, In s (body w) -> 0 <= seg_age s < Z.of_nat (length (body w)).
Proof.
  intros Hr; destruct (reachable_trail _ _ Hr) as [_ [_ [Hd _]]]; split; [exact Hd|].
  intros s Hs; apply desc_In; rewrite <- Hd; apply in_map, Hs.
Qed.

(** ** Witnesses of the further properties *)

Lemma after_two_ticks_reachable : reachable 2 after_two_ticks.
Proof.
  apply (run_frames_reachable [tick_input; tick_input] 0 init_world); [constructor| |].
  - intros inp [<-|[<-|[]]] i; unfold in_scene; simpl; lia.
  - vm_compute; reflexivity.
Qed.

Lemma food_never_under_snake_witness :
  reachable 2 after_two_ticks /\ food after_two_ticks <> [] /\
  (length (food after_two_ticks) <= 1)%nat /\
  forall f, In f (food after_two_ticks) ->
    in_scene (scene after_two_ticks) (snd f) /\ ~ In (snd f) (map snd (walls after_two_ticks)) /\
    snd f <> snake_pos after_two_ticks /\ ~ In (snd f) (map seg_pos (body after_two_ticks)).
Proof.
  split; [exact after_two_ticks_reachable|]; split; [vm_compute; discriminate|].
  exact (food_never_under_snake 2 after_two_ticks after_two_ticks_reachable).
Defined.

Lemma snake_body_connected_witness :
  reachable 2 after_two_ticks /\ length (body after_two_ticks) = 2%nat /\
  dir (snake_meta after_two_ticks) <> opposite (prev_dir (snake_meta after_two_ticks)) /\
  (forall s, In s (body after_two_ticks) -> seg_age s = 0 ->
     step_pos (prev_dir (snake_meta after_two_ticks)) (seg_pos s) = snake_pos after_two_ticks) /\
  (forall s s', In s (body after_two_ticks) -> In s' (body after_two_ticks) ->
     seg_age s' = seg_age s + 1 -> exists d, step_pos d (seg_pos s') = seg_pos s).
Proof.
  split; [exact after_two_ticks_reachable|]; split; [vm_compute; reflexivity|].
  exact (snake_body_connected 2 after_two_ticks after_two_ticks_reachable).
Defined.

Lemma body_ages_consecutive_witness :
  reachable 2 after_two_ticks /\
  map seg_age (body after_two_ticks) = desc (length (body after_two_ticks)) /\
  forall s, In s (body after_two_ticks) -> 0 <= seg_age s < Z.of_nat (length (body after_two_ticks)).
Proof.
  split; [exact after_two_ticks_reachable|].
  exact (body_ages_consecutive 2 after_two_ticks after_two_ticks_reachable).
Defined.

Lemma move_never_onto_neck_witness :
  let w' := match third_move with Some w' => w' | None => after_two_ticks end in
  reachable 2 after_two_ticks /\ third_move = Some w' /\
  forall s, In s (body after_two_ticks) -> seg_age s = 0 -> snake_pos w' <> seg_pos s.
Proof.
  intros w'; split; [exact after_two_ticks_reachable|].
  assert (H : third_move = Some w') by (vm_compute; reflexivity).
  split; [exact H|].
  exact (move_never_onto_neck 2 after_two_ticks true (Some KeyCode.Left) w'
           after_two_ticks_reachable H).
Defined.

Lemma frame_moves_straight_witness :
  let inp := mkFrameInput false None 3 (fun _ => mkPos 1 1) in
  let r := frame init_world inp in
  let w' := match r with Some (w', _) => w' | None => init_world end in
  let out := match r with Some (_, o) => o | None => None end in
  frame init_world inp = Some (w', out) /\
  let d := dir (control_snake (snake_meta init_world) (keys_changed inp) (key_released inp)) in
  snake_pos w' = Nat.iter (fixed_runs inp) (step_pos d) (snake_pos init_world) /\
  dir (snake_meta w') = d /\
  (fixed_runs inp <> 0%nat -> prev_dir (snake_meta w') = d).
Proof.
  intros inp r w' out.
  assert (H : frame init_world inp = Some (w', out)) by (vm_compute; reflexivity).
  split; [exact H|exact (frame_moves_straight init_world inp w' out H)].
Defined.

Lemma respawn_food_placement_witness :
  let occ := map snd basic_walls in
  let rng := fun i : nat => if Nat.eqb i 0 then mkPos 0 0 else mkPos 5 5 in
  respawn_food (mkScene 10 10) [] occ rng = Some [SpawnFood (mkPos 1 1)] /\
  (respawn_food (mkScene 10 10) [] occ rng = None <->
   U32_MAX < 10 * 10 \/
   (Z.of_nat (length (nodup Pos_eq_dec occ)) <> 10 * 10 /\ (10 <= 0 \/ 10 <= 0))) /\
  forall cs, respawn_food (mkScene 10 10) [] occ rng = Some cs ->
  (Z.of_nat (length (nodup Pos_eq_dec occ)) = 10 * 10 -> cs = []) /\
  (Z.of_nat (length (nodup Pos_eq_dec occ)) <> 10 * 10 ->
   (~ In (rng 0%nat) occ -> cs = [SpawnFood (rng 0%nat)]) /\
   (In (rng 0%nat) occ ->
    ((cs = [] <-> forall q, in_scene (mkScene 10 10) q -> In q occ) /\
     forall p, cs = [SpawnFood p] ->
       in_scene (mkScene 10 10) p /\ ~ In p occ /\
       forall q, in_scene (mkScene 10 10) q -> ~ In q occ ->
         x p < x q \/ (x p = x q /\ y p <= y q)))).
Proof.
  intros occ rng; split; [vm_compute; reflexivity|].
  exact (respawn_food_placement (mkScene 10 10) occ rng).
Defined.

Lemma respawn_food_full_check_counts_outside_witness :
  let sc := mkScene 10 10 in
  let rng := fun _ : nat => mkPos 1 1 in
  respawn_food sc [] occupied_with_outside rng = Some [] /\
  exists p, in_scene sc p /\ ~ In p occupied_with_outside.
Proof.
  intros sc rng.
  apply (respawn_food_full_check_counts_outside sc occupied_with_outside rng).
  - simpl; lia.
  - simpl; lia.
  - vm_compute; discriminate.
  - exists (mkPos 10 5); split; [left; reflexivity|unfold in_scene; simpl; lia].
  - vm_compute; reflexivity.
Defined.

Lemma update_position_overflow_witness :
  let changed := [mkPos 5 5; mkPos 134217728 0] in
  Forall (fun p => 0 <= x p /\ 0 <= y p) changed /\
  (update_position (fun z => z) Z.sub Z.mul Z.div 1 2 (mkScene 10 10) changed = None <->
   exists p, In p changed /\ (134217727 < x p \/ 134217727 < y p)) /\
  (forall ts,
   update_position (fun z => z) Z.sub Z.mul Z.div 1 2 (mkScene 10 10) changed = Some ts ->
   length ts = length changed).
Proof.
  intros changed.
  assert (H : Forall (fun p => 0 <= x p /\ 0 <= y p) changed)
    by (repeat constructor; simpl; lia).
  split; [exact H|].
  exact (update_position_overflow (fun z => z) Z.sub Z.mul Z.div 1 2 (mkScene 10 10) changed H).
Defined.
